(** * Forward-mode derivatives by double reverse-mode differentiation

    A shallow embedding of [tensorflow/contrib/nn/python/ops/fwd_gradients.py].

    The function [fwd_gradients] is translated line by line from the source.
    The framework operations it calls ([gradients], [zeros_like],
    [convert_to_tensor], [control_dependencies], [Assert], [identity_n],
    [set_shape], the tensor [+]) live outside the file; they are modelled in
    module [TF] over a small computation graph in which every tensor holds a
    single number.  Graph construction is a state-and-exception monad over
    the ambient graph; running a graph is a separate forward pass, over
    exact numbers in [TF.eval] and with single-precision rounding in
    [F32.eval]. *)

From Stdlib Require Import List ZArith Lia Bool Arith String.
Import ListNotations.

(** ** Results: a value or an exception *)

Inductive Result (E A : Type) : Type :=
| Ok (a : A)
| Err (e : E).
Arguments Ok {E A} a.
Arguments Err {E A} e.

(** Exceptions raised while the graph is being built (Python level). *)
Inductive PyError : Type :=
| TypeError
| ValueError.

(** Errors raised while a graph is run. *)
Inductive RunError : Type :=
| InvalidArgumentError (name : string)   (* a failed Assert op *)
| NotFoundError.                         (* a handle outside the graph *)

Module TF.

(** ** Tensors, nodes and the ambient graph *)

Inductive DType : Type :=
| DT_HALF | DT_FLOAT | DT_DOUBLE
| DT_COMPLEX64 | DT_COMPLEX128
| DT_INT32 | DT_INT64 | DT_BOOL.

Definition is_floating (d : DType) : bool :=
  match d with
  | DT_HALF | DT_FLOAT | DT_DOUBLE => true
  | _ => false
  end.

Definition is_complex (d : DType) : bool :=
  match d with
  | DT_COMPLEX64 | DT_COMPLEX128 => true
  | _ => false
  end.

(** The dtypes a Python float can be converted to: the floating-point and
    the complex ones, not the integer ones nor bool. *)
Definition accepts_python_float (d : DType) : bool :=
  is_floating d || is_complex d.

(** Static shape metadata; [None] is an unknown shape. *)
Definition TensorShape : Type := option (list nat).

(** The number held by a tensor: an exact number or not-a-number. *)
Inductive scalar : Type :=
| NaN
| Fin (z : Z).

Definition sc_add (a b : scalar) : scalar :=
  match a, b with
  | Fin x, Fin y => Fin (x + y)%Z
  | _, _ => NaN
  end.

Definition sc_mul (a b : scalar) : scalar :=
  match a, b with
  | Fin x, Fin y => Fin (x * y)%Z
  | _, _ => NaN
  end.

(** A tensor is a handle: the position of its producing node in the graph. *)
Definition Tensor : Type := nat.

Inductive Op : Type :=
| Placeholder                        (* fed when the graph is run *)
| Const (v : scalar)
| ZerosLike (a : Tensor)
| OnesLike (a : Tensor)
| Add (a b : Tensor)
| AddN (l : list Tensor)
| Mul (a b : Tensor)
| Identity (a : Tensor)
| Assert (cond : bool) (name : string)
| Gather (params : Tensor)           (* gather(params, [0]) *)
| UnsortedSegmentSum (data : Tensor) (* the dense form of an IndexedSlices *).

Record Node : Type := mkNode {
  op : Op;
  control_inputs : list Tensor;
  shape : TensorShape;
  dtype : DType
}.

Definition Graph : Type := list Node.

(** The sparse/indexed representation of a gradient. *)
Record IndexedSlices : Type := mkIndexedSlices {
  values : Tensor;
  dense_shape : TensorShape
}.

(** What the reverse-mode primitive hands back for one target
    (Python: a [Tensor] or an [IndexedSlices]; [None] is [option]'s). *)
Inductive TensorLike : Type :=
| Dense (t : Tensor)
| Sparse (s : IndexedSlices).

(** ** The graph-construction monad *)

Definition M (A : Type) : Type := Graph -> Result PyError A * Graph.

Definition ret {A} (a : A) : M A := fun g => (Ok a, g).

Definition bind {A B} (m : M A) (f : A -> M B) : M B :=
  fun g =>
    match m g with
    | (Ok a, g1) => f a g1
    | (Err e, g1) => (Err e, g1)
    end.

Definition raise {A} (e : PyError) : M A := fun g => (Err e, g).

Notation "x <- m ;; k" := (bind m (fun x => k))
  (at level 61, m at next level, right associativity).

Fixpoint mapM {A B} (f : A -> M B) (l : list A) : M (list B) :=
  match l with
  | [] => ret []
  | a :: l' => b <- f a ;; bs <- mapM f l' ;; ret (b :: bs)
  end.

(** Registering a node: it is appended and its position is its handle. *)
Definition add_node (n : Node) : M Tensor :=
  fun g => (Ok (List.length g), g ++ [n]).

Definition shape_of (g : Graph) (t : Tensor) : TensorShape :=
  match nth_error g t with
  | Some n => shape n
  | None => None
  end.

Definition dtype_of (g : Graph) (t : Tensor) : DType :=
  match nth_error g t with
  | Some n => dtype n
  | None => DT_FLOAT
  end.

Definition get_shape (t : Tensor) : M TensorShape :=
  fun g => (Ok (shape_of g t), g).

Definition get_dtype (t : Tensor) : M DType :=
  fun g => (Ok (dtype_of g t), g).

Fixpoint list_update {A} (l : list A) (i : nat) (a : A) : list A :=
  match l, i with
  | [], _ => []
  | _ :: l', O => a :: l'
  | x :: l', S i' => x :: list_update l' i' a
  end.

(** ** Running a graph

    Nodes are stored in creation order, so one forward pass computes the
    number (or the failure) of every node. *)

Definition Value : Type := Result RunError scalar.

Definition fetch (vals : list Value) (t : Tensor) : Value :=
  match nth_error vals t with
  | Some v => v
  | None => Err NotFoundError
  end.

(** A binary operation on two values; the first operand's failure wins. *)
Definition lift2 (f : scalar -> scalar -> scalar) (a b : Value) : Value :=
  match a, b with
  | Ok x, Ok y => Ok (f x y)
  | Err e, _ => Err e
  | _, Err e => Err e
  end.

Fixpoint first_failure (vals : list Value) (l : list Tensor)
  : option RunError :=
  match l with
  | [] => None
  | t :: l' =>
      match fetch vals t with
      | Err e => Some e
      | Ok _ => first_failure vals l'
      end
  end.

Fixpoint sum_values (vals : list Value) (l : list Tensor) : Value :=
  match l with
  | [] => Ok (Fin 0%Z)
  | t :: l' => lift2 sc_add (fetch vals t) (sum_values vals l')
  end.

Definition run_op (feed : Tensor -> Z) (self : Tensor) (vals : list Value)
           (o : Op) : Value :=
  match o with
  | Placeholder => Ok (Fin (feed self))
  | Const v => Ok v
  | ZerosLike a =>
      match fetch vals a with Ok _ => Ok (Fin 0%Z) | Err e => Err e end
  | OnesLike a =>
      match fetch vals a with Ok _ => Ok (Fin 1%Z) | Err e => Err e end
  | Add a b => lift2 sc_add (fetch vals a) (fetch vals b)
  | AddN l => sum_values vals l
  | Mul a b => lift2 sc_mul (fetch vals a) (fetch vals b)
  | Identity a => fetch vals a
  | Assert cond name =>
      if cond then Ok (Fin 0%Z) else Err (InvalidArgumentError name)
  | Gather p => fetch vals p
  | UnsortedSegmentSum d => fetch vals d
  end.

(** A node runs after its control inputs; their failure is its failure. *)
Definition run_node (feed : Tensor -> Z) (vals : list Value) (n : Node)
  : Value :=
  match first_failure vals (control_inputs n) with
  | Some e => Err e
  | None => run_op feed (List.length vals) vals (op n)
  end.

Fixpoint run_from (feed : Tensor -> Z) (vals : list Value) (g : Graph)
  : list Value :=
  match g with
  | [] => vals
  | n :: g' => run_from feed (vals ++ [run_node feed vals n]) g'
  end.

Definition run (feed : Tensor -> Z) (g : Graph) : list Value :=
  run_from feed [] g.

(** [eval g feed t]: what a session returns when asked for [t] alone. *)
Definition eval (g : Graph) (feed : Tensor -> Z) (t : Tensor) : Value :=
  fetch (run feed g) t.

End TF.

Import TF.

(** ** The framework operations used by the source *)

Module ops.

(** Modelled from the spec: [ops.convert_to_tensor] on a sparse/indexed
    gradient is the provided conversion to a dense node; it registers one
    [UnsortedSegmentSum] node over the slices' values. *)
Definition convert_to_tensor (s : IndexedSlices) : M Tensor :=
  d <- get_dtype (values s) ;;
  add_node (mkNode (UnsortedSegmentSum (values s)) [] (dense_shape s) d).

(** Modelled from the spec: [ops.control_dependencies] orders the nodes
    created in its block after the given nodes; only graph nodes can be
    control inputs, so a [None] entry is a [TypeError]. *)
Fixpoint control_dependencies (l : list (option Tensor)) : M (list Tensor) :=
  match l with
  | [] => ret []
  | None :: _ => raise TypeError
  | Some t :: l' => ts <- control_dependencies l' ;; ret (t :: ts)
  end.

(** Modelled from the spec: [Tensor.set_shape] merges the given static shape
    into the node's shape metadata, in place; two known shapes that differ
    are a [ValueError]. *)
Definition merge_with (a b : TensorShape) : Result PyError TensorShape :=
  match a, b with
  | None, _ => Ok b
  | _, None => Ok a
  | Some x, Some y =>
      if list_eq_dec Nat.eq_dec x y then Ok a else Err ValueError
  end.

Definition set_shape (t : Tensor) (s : TensorShape) : M unit :=
  fun g =>
    match nth_error g t with
    | None => (Err ValueError, g)
    | Some n =>
        match merge_with (shape n) s with
        | Ok s' =>
            (Ok tt,
             list_update g t (mkNode (op n) (control_inputs n) s' (dtype n)))
        | Err e => (Err e, g)
        end
    end.

(** Modelled from the spec: the tensor [+] with a Python float on the right
    converts the float to a constant of the tensor's dtype, which is a
    [TypeError] when that dtype is an integer one or bool (the sentinel is
    meaningful for floating types only), and registers the sum. *)
Definition add_float (t : Tensor) (v : scalar) : M Tensor :=
  d <- get_dtype t ;;
  s <- get_shape t ;;
  if accepts_python_float d then
    c <- add_node (mkNode (Const v) [] (Some []) d) ;;
    add_node (mkNode (Add t c) [] s d)
  else raise TypeError.

End ops.

Module array_ops.

(** Modelled from the spec: zero-filling a node, with its shape and dtype.
    When the static shape of the node is known the zeros are a constant,
    which does not read the node; otherwise they are a [ZerosLike] op that
    reads it when the graph is run. *)
Definition zeros_node (g : Graph) (t : Tensor) : Node :=
  match shape_of g t with
  | Some s => mkNode (Const (Fin 0%Z)) [] (Some s) (dtype_of g t)
  | None => mkNode (ZerosLike t) [] None (dtype_of g t)
  end.

Definition zeros_like (t : Tensor) : M Tensor :=
  fun g => add_node (zeros_node g t) g.

(** Modelled from the spec: the identity pass-through, created under the
    control dependencies [ctrl]; one [Identity] node per entry.  Only graph
    nodes can be passed through, so a [None] entry is a [TypeError]; an
    empty list is a [ValueError]. *)
Fixpoint identity_nodes (ctrl : list Tensor) (l : list (option Tensor))
  : M (list Tensor) :=
  match l with
  | [] => ret []
  | None :: _ => raise TypeError
  | Some t :: l' =>
      d <- get_dtype t ;;
      s <- get_shape t ;;
      i <- add_node (mkNode (Identity t) ctrl s d) ;;
      rest <- identity_nodes ctrl l' ;;
      ret (i :: rest)
  end.

Definition identity_n (ctrl : list Tensor) (l : list (option Tensor))
  : M (list Tensor) :=
  match l with
  | [] => raise ValueError
  | _ => identity_nodes ctrl l
  end.

End array_ops.

Module control_flow_ops.

(** Modelled from the spec: a node that evaluates a boolean condition and
    fails the graph evaluation if it is false, created under the control
    dependencies [ctrl]. *)
Definition Assert (ctrl : list Tensor) (cond : bool) (name : string)
  : M Tensor :=
  add_node (mkNode (TF.Assert cond name) ctrl (Some []) DT_BOOL).

End control_flow_ops.

Module gradients_impl.

(** Modelled from the spec: the reverse-mode differentiation primitive
    [gradients(ys, xs, grad_ys)].  It walks the nodes that exist when it is
    called from the newest to the oldest, sums the gradient contributions
    that reached a node, and hands the sum to the node's inputs through the
    node's derivative rule, registering the nodes of the derivative as it
    goes.  A target that no contribution reaches gets [None]; a gradient that
    flows into [Gather] comes out in the sparse/indexed representation. *)

Definition Pending : Type := Tensor -> list TensorLike.

Definition push (p : Pending) (c : Tensor * TensorLike) : Pending :=
  fun k => if Nat.eqb k (fst c) then p k ++ [snd c] else p k.

Definition push_all (p : Pending) (cs : list (Tensor * TensorLike))
  : Pending :=
  fold_left push cs p.

(** A new node with the shape and dtype of an existing one. *)
Definition like (t : Tensor) (o : Op) : M Tensor :=
  d <- get_dtype t ;;
  s <- get_shape t ;;
  add_node (mkNode o [] s d).

Definition as_tensor (x : TensorLike) : M Tensor :=
  match x with
  | Dense t => ret t
  | Sparse s => ops.convert_to_tensor s
  end.

(** The sum of the contributions that reached node [self]: nothing, the one
    contribution as it is, or an [AddN] over their dense forms. *)
Definition aggregated (self : Tensor) (l : list TensorLike)
  : M (option TensorLike) :=
  match l with
  | [] => ret None
  | [x] => ret (Some x)
  | _ =>
      ts <- mapM as_tensor l ;;
      t <- like self (AddN ts) ;;
      ret (Some (Dense t))
  end.

(** The derivative rule of one op: the contributions to its inputs, given
    the gradient [gr] of the node itself. *)
Definition op_grad (o : Op) (gr : TensorLike)
  : M (list (Tensor * TensorLike)) :=
  match o with
  | Placeholder | Const _ | ZerosLike _ | OnesLike _ | TF.Assert _ _ =>
      ret []
  | Identity a => ret [(a, gr)]
  | Add a b =>
      d <- as_tensor gr ;;
      ret [(a, Dense d); (b, Dense d)]
  | AddN l =>
      d <- as_tensor gr ;;
      ret (map (fun a => (a, Dense d)) l)
  | Mul a b =>
      d <- as_tensor gr ;;
      ga <- like a (Mul d b) ;;
      gb <- like b (Mul a d) ;;
      ret [(a, Dense ga); (b, Dense gb)]
  | Gather p =>
      d <- as_tensor gr ;;
      s <- get_shape p ;;
      ret [(p, Sparse (mkIndexedSlices d s))]
  | UnsortedSegmentSum v =>
      d <- as_tensor gr ;;
      e <- like v (Gather d) ;;
      ret [(v, Dense e)]
  end.

Definition get_op (t : Tensor) : M Op :=
  fun g => (Ok (match nth_error g t with
                | Some n => op n
                | None => Placeholder
                end), g).

Definition Grads : Type := Tensor -> option TensorLike.

Definition record (grads : Grads) (t : Tensor) (gr : TensorLike) : Grads :=
  fun k => if Nat.eqb k t then Some gr else grads k.

(** The backward sweep over the nodes [k-1, ..., 0]. *)
Fixpoint backprop (k : nat) (pend : Pending) (grads : Grads) : M Grads :=
  match k with
  | O => ret grads
  | S i =>
      a <- aggregated i (pend i) ;;
      match a with
      | None => backprop i pend grads
      | Some gr =>
          o <- get_op i ;;
          cs <- op_grad o gr ;;
          backprop i (push_all pend cs) (record grads i gr)
      end
  end.

(** The seeds: the given [grad_ys], one per output, or by default a constant
    one shaped like each output. *)
Definition default_grad_ys (ys : list Tensor) (grad_ys : option (list Tensor))
  : M (list Tensor) :=
  match grad_ys with
  | Some l =>
      if Nat.eqb (List.length l) (List.length ys) then ret l
      else raise ValueError
  | None => mapM (fun y => like y (Const (Fin 1%Z))) ys
  end.

Definition graph_size : M nat := fun g => (Ok (List.length g), g).

Definition gradients (ys xs : list Tensor) (grad_ys : option (list Tensor))
  : M (list (option TensorLike)) :=
  n <- graph_size ;;
  seeds <- default_grad_ys ys grad_ys ;;
  grads <- backprop n
             (push_all (fun _ => [])
                (combine ys (map Dense seeds)))
             (fun _ => None) ;;
  ret (map grads xs).

End gradients_impl.

Import gradients_impl.

(** ** The source function *)

(** Line 55: [us = [array_ops.zeros_like(y) + float('nan') for y in ys]]. *)
Definition dual_placeholders (ys : list Tensor) : M (list Tensor) :=
  mapM (fun y => z <- array_ops.zeros_like y ;; ops.add_float z NaN) ys.

(** Lines 60-61: sparse entries are converted, the others kept. *)
Definition to_dense (dydx : option TensorLike) : M (option Tensor) :=
  match dydx with
  | Some (Sparse s) => t <- ops.convert_to_tensor s ;; ret (Some t)
  | Some (Dense t) => ret (Some t)
  | None => ret None
  end.

(** Lines 63-67: the assertion instrumentation. *)
Definition instrument (assert_unused : bool) (dydxs : list (option Tensor))
  : M (list (option Tensor)) :=
  if assert_unused then
    ctrl <- ops.control_dependencies dydxs ;;
    assert_unused <- control_flow_ops.Assert ctrl false "fwd_gradients" ;;
    dydxs <- array_ops.identity_n [assert_unused] dydxs ;;
    ret (map Some dydxs)
  else ret dydxs.

(** Lines 69-70: a missing derivative becomes zeros shaped like its [x]. *)
Definition or_zeros (p : Tensor * option Tensor) : M Tensor :=
  match snd p with
  | None => array_ops.zeros_like (fst p)
  | Some dydx => ret dydx
  end.

(** Lines 71-72: [dydx.set_shape(x.shape)]. *)
Definition force_shape (p : Tensor * Tensor) : M unit :=
  s <- get_shape (fst p) ;; ops.set_shape (snd p) s.

(** Lines 55-72: the dual placeholders and the first-pass derivatives as the
    second reverse-mode call receives them. *)
Definition fwd_gradients_dydxs (ys xs : list Tensor) (assert_unused : bool)
  : M (list Tensor * list Tensor) :=
  us <- dual_placeholders ys ;;
  dydxs <- gradients ys xs (Some us) ;;
  dydxs <- mapM to_dense dydxs ;;
  dydxs <- instrument assert_unused dydxs ;;
  dydxs <- mapM or_zeros (combine xs dydxs) ;;
  _ <- mapM force_shape (combine xs dydxs) ;;
  ret (us, dydxs).

(** Lines 27-76. *)
Definition fwd_gradients (ys xs : list Tensor) (grad_xs : option (list Tensor))
           (assert_unused : bool) : M (list (option TensorLike)) :=
  p <- fwd_gradients_dydxs ys xs assert_unused ;;
  dysdx <- gradients (snd p) (fst p) grad_xs ;;
  ret dysdx.

(** ** Concrete graphs *)

Definition scalar_input : Node := mkNode Placeholder [] (Some []) DT_FLOAT.
Definition scalar_const (z : Z) : Node :=
  mkNode (Const (Fin z)) [] (Some []) DT_FLOAT.

(** [x1], [x2], [y = x1 * x2] and the constants [1] and [0], at the handles
    0, 1, 2, 3 and 4. *)
Definition product_graph : Graph :=
  [ scalar_input; scalar_input;
    mkNode (Mul 0%nat 1%nat) [] (Some []) DT_FLOAT;
    scalar_const 1%Z; scalar_const 0%Z ].

Definition int_input : Node := mkNode Placeholder [] (Some []) DT_INT32.

Definition complex_input : Node :=
  mkNode Placeholder [] (Some []) DT_COMPLEX64.

(** [x] and [y = gather(x, [0])], and a constant seed [3]. *)
Definition gather_graph : Graph :=
  [ mkNode Placeholder [] (Some [1%nat]) DT_FLOAT;
    mkNode (Gather 0%nat) [] (Some [1%nat]) DT_FLOAT;
    mkNode (Const (Fin 3%Z)) [] (Some [1%nat]) DT_FLOAT ].

(** [x] and [y = unsorted_segment_sum(x, [0], 1)], and a constant seed. *)
Definition segment_sum_graph : Graph :=
  [ mkNode Placeholder [] (Some [1%nat]) DT_FLOAT;
    mkNode (UnsortedSegmentSum 0%nat) [] (Some [1%nat]) DT_FLOAT;
    mkNode (Const (Fin 3%Z)) [] (Some [1%nat]) DT_FLOAT ].

(** What lines 60-61 make of one entry: [n0] is the size of the graph
    before the conversion and [g'] the graph after it. *)
Definition densified (g' : Graph) (n0 : nat) (dydx : option TensorLike)
           (r : option Tensor) : Prop :=
  match dydx with
  | None => r = None
  | Some (Dense t) => r = Some t
  | Some (Sparse s) =>
      exists t nd,
        r = Some t /\ n0 <= t /\ nth_error g' t = Some nd
        /\ op nd = UnsortedSegmentSum (values s)
        /\ shape nd = dense_shape s
  end.

(** The node a gradient is held in. *)
Definition handle (x : TensorLike) : Tensor :=
  match x with
  | Dense t => t
  | Sparse s => values s
  end.

(** [keeps pre m Q]: run on any graph that starts with the nodes [pre], the
    computation [m] leaves a graph that still starts with [pre], unchanged,
    and a value it returns satisfies [Q]. *)
Definition keeps (pre : Graph) {A} (m : M A) (Q : A -> Prop) : Prop :=
  forall rest, exists r rest',
    m (pre ++ rest) = (r, pre ++ rest')
    /\ match r with Ok a => Q a | Err _ => True end.

Definition above (lo : nat) (x : TensorLike) : Prop := lo <= handle x.

Definition opt_above (lo : nat) (x : option TensorLike) : Prop :=
  match x with Some y => above lo y | None => True end.

Definition opt_from (lo : nat) (x : option Tensor) : Prop :=
  match x with Some t => lo <= t | None => True end.

Definition pending_above (lo : nat) (pend : Pending) : Prop :=
  forall i, Forall (above lo) (pend i).

Definition grads_above (lo : nat) (grads : Grads) : Prop :=
  forall t, opt_above lo (grads t).

(** ** Well-formed graphs

    In a graph built by the framework every node reads nodes that exist. *)

Definition op_inputs (o : Op) : list Tensor :=
  match o with
  | Placeholder | Const _ | TF.Assert _ _ => []
  | ZerosLike a | OnesLike a | Identity a | Gather a
  | UnsortedSegmentSum a => [a]
  | Add a b | Mul a b => [a; b]
  | AddN l => l
  end.

Definition below (k : nat) (t : Tensor) : Prop := t < k.

Definition node_ok (k : nat) (n : Node) : Prop :=
  Forall (below k) (op_inputs (op n)) /\ Forall (below k) (control_inputs n).

Definition closed (g : Graph) : Prop := Forall (node_ok (List.length g)) g.

(** [within k m Q]: on a well-formed graph of at least [k] nodes, [m] leaves
    a well-formed graph that is no smaller, and a value it returns satisfies
    [Q] at the new size. *)
Definition within (k : nat) {A} (m : M A) (Q : nat -> A -> Prop) : Prop :=
  forall g, closed g -> k <= List.length g ->
    exists r g',
      m g = (r, g') /\ closed g' /\ List.length g <= List.length g'
      /\ match r with Ok a => Q (List.length g') a | Err _ => True end.

Definition opt_below (k : nat) (x : option Tensor) : Prop :=
  match x with Some t => t < k | None => True end.

Definition handle_below (k : nat) (x : TensorLike) : Prop := handle x < k.

Definition opt_handle_below (k : nat) (x : option TensorLike) : Prop :=
  match x with Some y => handle y < k | None => True end.

Definition pending_below (k : nat) (pend : Pending) : Prop :=
  forall i, Forall (handle_below k) (pend i).

Definition grads_below (k : nat) (grads : Grads) : Prop :=
  forall t, opt_handle_below k (grads t).

Definition contribs_below (k : nat) (cs : list (Tensor * TensorLike)) : Prop :=
  Forall (fun c => handle_below k (snd c)) cs.

(** ** Two runs side by side

    Two calls of the reverse-mode primitive on the same graph [G], with
    different seeds, register different nodes; the gradients they return are
    compared by what they evaluate to. *)

(** A value multiplied by the number [c]; a failure stays the failure. *)
Definition scale (c : Z) (v : Value) : Value :=
  match v with
  | Ok x => Ok (sc_mul (Fin c) x)
  | Err e => Err e
  end.

Definition extends (G g : Graph) : Prop := exists e, g = G ++ e.

(** [a] in [gA] evaluates to [c] times what [b] evaluates to in [gB]. *)
Definition rel (feed : Tensor -> Z) (c : Z) (gA gB : Graph) (a b : Tensor)
  : Prop :=
  a < List.length gA /\ b < List.length gB
  /\ eval gA feed a = scale c (eval gB feed b).

Definition rel_like (feed : Tensor -> Z) (c : Z) (gA gB : Graph)
           (x y : TensorLike) : Prop :=
  match x, y with
  | Dense a, Dense b => rel feed c gA gB a b
  | Sparse s, Sparse s' => rel feed c gA gB (values s) (values s')
  | _, _ => False
  end.

Definition opt_rel_like (feed : Tensor -> Z) (c : Z) (gA gB : Graph)
           (x y : option TensorLike) : Prop :=
  match x, y with
  | None, None => True
  | Some a, Some b => rel_like feed c gA gB a b
  | _, _ => False
  end.

(** [sim G P mA mB Q]: from two graphs that extend [G] and satisfy [P], both
    computations return, each only appends nodes, and [Q] relates what they
    return in the graphs they leave. *)
Definition sim (G : Graph) (P : Graph -> Graph -> Prop) {X Y}
           (mA : M X) (mB : M Y)
           (Q : Graph -> Graph -> X -> Y -> Prop) : Prop :=
  forall gA gB, extends G gA -> extends G gB -> P gA gB ->
    exists a eA b eB,
      mA gA = (Ok a, gA ++ eA) /\ mB gB = (Ok b, gB ++ eB)
      /\ Q (gA ++ eA) (gB ++ eB) a b.

Definition stable (P : Graph -> Graph -> Prop) : Prop :=
  forall gA gB eA eB, P gA gB -> P (gA ++ eA) (gB ++ eB).

Definition pending_rel (feed : Tensor -> Z) (c : Z) (pA pB : Pending)
           (gA gB : Graph) : Prop :=
  forall i, Forall2 (rel_like feed c gA gB) (pA i) (pB i).

Definition grads_rel (feed : Tensor -> Z) (c : Z) (dA dB : Grads)
           (gA gB : Graph) : Prop :=
  forall t, opt_rel_like feed c gA gB (dA t) (dB t).

Definition contrib_rel (feed : Tensor -> Z) (c : Z) (gA gB : Graph)
           (cA cB : Tensor * TensorLike) : Prop :=
  fst cA = fst cB /\ rel_like feed c gA gB (snd cA) (snd cB).

(** Two entries of two results agree: both are absent, or they have the
    same representation and the first evaluates to [c] times the second. *)
Definition scaled_entry (feed : Tensor -> Z) (c : Z) (gA gB : Graph)
           (x y : option TensorLike) : Prop :=
  match x, y with
  | None, None => True
  | Some (Dense a), Some (Dense b) =>
      eval gA feed a = scale c (eval gB feed b)
  | Some (Sparse s), Some (Sparse s') =>
      eval gA feed (values s) = scale c (eval gB feed (values s'))
  | _, _ => False
  end.

Definition same_entry (feed : Tensor -> Z) (gA gB : Graph)
           (x y : option TensorLike) : Prop :=
  match x, y with
  | None, None => True
  | Some (Dense a), Some (Dense b) => eval gA feed a = eval gB feed b
  | Some (Sparse s), Some (Sparse s') =>
      eval gA feed (values s) = eval gB feed (values s')
  | _, _ => False
  end.

(** [product_graph] with one more constant, [2], at the handle 5. *)
Definition scaled_product_graph : Graph := product_graph ++ [scalar_const 2%Z].

(** A feed for [x1] and [x2]. *)
Definition sample_feed (t : Tensor) : Z :=
  match t with
  | 0 => 5%Z
  | 1 => 7%Z
  | _ => 0%Z
  end.

(** A node that is not among the nodes [pre]. *)
Definition fresh (pre : Graph) (t : Tensor) : Prop := List.length pre <= t.

(** ** How a graph evolves while it is built

    What a node computes is fixed by its op and its control inputs; its
    shape and dtype are metadata. *)

Definition code_of (g : Graph) : list (Op * list Tensor) :=
  map (fun n => (op n, control_inputs n)) g.

(** [g'] is [g] after some construction steps: the ops and control inputs of
    [g] are still there, in place, and a static shape that was known is
    still the same. *)
Definition evolves (g g' : Graph) : Prop :=
  (exists e, code_of g' = code_of g ++ e)
  /\ (forall t s, shape_of g t = Some s -> shape_of g' t = Some s).

Definition evolving {A} (m : M A) : Prop :=
  forall g r g', m g = (r, g') -> evolves g g'.

(** [outcome m Q E]: [m] returns a value that satisfies [Q] or raises an
    error that satisfies [E]. *)
Definition outcome {A} (m : M A) (Q : A -> Prop) (E : PyError -> Prop)
  : Prop :=
  forall g, exists r g',
    m g = (r, g') /\ match r with Ok a => Q a | Err e => E e end.

Definition no_error (e : PyError) : Prop := False.

(** The value of a dual placeholder of an output that evaluates to [v]. *)
Definition nan_like (v : Value) : Value :=
  match v with
  | Ok _ => Ok NaN
  | Err e => Err e
  end.

(** The value of the dual placeholder of an output of static shape [s] that
    evaluates to [v]: with a known shape the zeros are a constant and the
    placeholder is NaN whatever the output does. *)
Definition sentinel_of (s : TensorShape) (v : Value) : Value :=
  match s with
  | Some _ => Ok NaN
  | None => nan_like v
  end.

(** A floating-point node of the graph. *)
Definition floating_in (g : Graph) (y : Tensor) : Prop :=
  y < List.length g /\ is_floating (dtype_of g y) = true.


(** ** Single-precision evaluation

    The evaluation above computes with exact numbers.  A [DT_FLOAT] kernel
    rounds the result of every operation to single precision. *)

Module F32.

(** Modelled from the spec: the nearest number with a 24-bit significand,
    ties to the even significand (overflow to infinity is left out: the
    numbers used below are far from it). *)
Definition round (z : Z) : Z :=
  let a := Z.abs z in
  if (a <? 2 ^ 24)%Z then z
  else
    let e := (Z.log2 a - 23)%Z in
    let q := Z.shiftr a e in
    let r := Z.land a (Z.ones e) in
    let half := Z.shiftl 1 (e - 1) in
    let q' := if (half <? r)%Z || ((r =? half)%Z && Z.odd q)
              then (q + 1)%Z else q in
    (Z.sgn z * Z.shiftl q' e)%Z.

Definition rounded (v : scalar) : scalar :=
  match v with
  | Fin z => Fin (round z)
  | NaN => NaN
  end.

Definition sc_add (a b : scalar) : scalar := rounded (TF.sc_add a b).
Definition sc_mul (a b : scalar) : scalar := rounded (TF.sc_mul a b).

Fixpoint sum_values (vals : list Value) (l : list Tensor) : Value :=
  match l with
  | [] => Ok (Fin 0%Z)
  | t :: l' => lift2 sc_add (fetch vals t) (sum_values vals l')
  end.

(** [TF.run_op] with the rounding operations. *)
Definition run_op (feed : Tensor -> Z) (self : Tensor) (vals : list Value)
           (o : Op) : Value :=
  match o with
  | Placeholder => Ok (Fin (round (feed self)))
  | Const v => Ok (rounded v)
  | ZerosLike a =>
      match fetch vals a with Ok _ => Ok (Fin 0%Z) | Err e => Err e end
  | OnesLike a =>
      match fetch vals a with Ok _ => Ok (Fin 1%Z) | Err e => Err e end
  | Add a b => lift2 sc_add (fetch vals a) (fetch vals b)
  | AddN l => sum_values vals l
  | Mul a b => lift2 sc_mul (fetch vals a) (fetch vals b)
  | Identity a => fetch vals a
  | TF.Assert cond name =>
      if cond then Ok (Fin 0%Z) else Err (InvalidArgumentError name)
  | Gather p => fetch vals p
  | UnsortedSegmentSum d => fetch vals d
  end.

Definition run_node (feed : Tensor -> Z) (vals : list Value) (n : Node)
  : Value :=
  match first_failure vals (control_inputs n) with
  | Some e => Err e
  | None => run_op feed (List.length vals) vals (op n)
  end.

Fixpoint run_from (feed : Tensor -> Z) (vals : list Value) (g : Graph)
  : list Value :=
  match g with
  | [] => vals
  | n :: g' => run_from feed (vals ++ [run_node feed vals n]) g'
  end.

Definition eval (g : Graph) (feed : Tensor -> Z) (t : Tensor) : Value :=
  fetch (run_from feed [] g) t.

Definition scale (c : Z) (v : Value) : Value :=
  match v with
  | Ok x => Ok (sc_mul (Fin c) x)
  | Err e => Err e
  end.

(** [scaled_entry], for single-precision values. *)
Definition scaled_entry (feed : Tensor -> Z) (c : Z) (gA gB : Graph)
           (x y : option TensorLike) : Prop :=
  match x, y with
  | None, None => True
  | Some (Dense a), Some (Dense b) =>
      eval gA feed a = scale c (eval gB feed b)
  | Some (Sparse s), Some (Sparse s') =>
      eval gA feed (values s) = scale c (eval gB feed (values s'))
  | _, _ => False
  end.

End F32.

(** [x1], [x2], [y = x1 * x2] and the constants [1], [2], [3] and [6], at
    the handles 0 to 6. *)
Definition rounding_graph : Graph :=
  [ scalar_input; scalar_input;
    mkNode (Mul 0%nat 1%nat) [] (Some []) DT_FLOAT;
    scalar_const 1%Z; scalar_const 2%Z; scalar_const 3%Z; scalar_const 6%Z ].

(** [x1 = 2^23] and [x2 = 1]. *)
Definition rounding_feed (t : Tensor) : Z :=
  match t with
  | 0 => 8388608%Z
  | 1 => 1%Z
  | _ => 0%Z
  end.

(** * Properties *)

(** C2: for [y = x1 * x2] with scalar inputs, the seed [[1, 0]] gives a
    one-element result that evaluates to the current value of [x2], and the
    seed [[0, 1]] one that evaluates to the current value of [x1]; so it is
    with and without the assertion instrumentation. *)
Theorem fwd_gradients_product (feed : Tensor -> Z) (assert_unused : bool) :
  (exists t g,
      fwd_gradients [2%nat] [0%nat; 1%nat] (Some [3%nat; 4%nat])
        assert_unused product_graph = (Ok [Some (Dense t)], g)
      /\ eval g feed t = Ok (Fin (feed 1%nat))
      /\ eval g feed t = eval g feed 1%nat)
  /\
  (exists t g,
      fwd_gradients [2%nat] [0%nat; 1%nat] (Some [4%nat; 3%nat])
        assert_unused product_graph = (Ok [Some (Dense t)], g)
      /\ eval g feed t = Ok (Fin (feed 0%nat))
      /\ eval g feed t = eval g feed 0%nat).
Proof.
  destruct assert_unused; split; eexists; eexists;
    (split; [ vm_compute; reflexivity | ]);
    split; cbv -[Z.add Z.mul]; do 2 f_equal; lia.
Qed.

Ltac unfold_monad :=
  unfold bind, ret, raise, add_node, get_dtype, get_shape, get_op,
    graph_size in *.

Lemma nth_error_snoc {A} (l : list A) (a : A) :
  nth_error (l ++ [a]) (List.length l) = Some a.
Proof.
  rewrite nth_error_app2 by lia. now rewrite Nat.sub_diag.
Qed.

Lemma nth_error_app_some {A} (l ext : list A) (i : nat) (a : A) :
  nth_error l i = Some a -> nth_error (l ++ ext) i = Some a.
Proof.
  intros H. rewrite nth_error_app1; [exact H |].
  apply nth_error_Some. congruence.
Qed.

Lemma dtype_of_snoc (g : Graph) (n : Node) :
  dtype_of (g ++ [n]) (List.length g) = dtype n.
Proof. unfold dtype_of. now rewrite nth_error_snoc. Qed.

Lemma shape_of_snoc (g : Graph) (n : Node) :
  shape_of (g ++ [n]) (List.length g) = shape n.
Proof. unfold shape_of. now rewrite nth_error_snoc. Qed.

Lemma bind_ok {A B} (m : M A) (f : A -> M B) (g g1 : Graph) (a : A) :
  m g = (Ok a, g1) -> bind m f g = f a g1.
Proof. intros H. unfold bind. now rewrite H. Qed.

Lemma bind_err {A B} (m : M A) (f : A -> M B) (g g1 : Graph) (e : PyError) :
  m g = (Err e, g1) -> bind m f g = (Err e, g1).
Proof. intros H. unfold bind. now rewrite H. Qed.

Lemma zeros_node_meta (g : Graph) (t : Tensor) :
  shape (array_ops.zeros_node g t) = shape_of g t
  /\ dtype (array_ops.zeros_node g t) = dtype_of g t.
Proof.
  unfold array_ops.zeros_node. destruct (shape_of g t) eqn:E; cbn; auto.
Qed.

(** The sentinel fill of one [y] either registers three nodes or stops with
    a [TypeError] after the zeros node. *)
Lemma dual_placeholder_step (y : Tensor) (g : Graph) :
  let d := dtype_of g y in
  let s := shape_of g y in
  let z := array_ops.zeros_node g y in
  (z <- array_ops.zeros_like y ;; ops.add_float z NaN) g =
  if accepts_python_float d
  then (Ok (S (S (List.length g))),
        g ++ [z; mkNode (Const NaN) [] (Some []) d;
              mkNode (Add (List.length g) (S (List.length g))) [] s d])
  else (Err TypeError, g ++ [z]).
Proof.
  cbv zeta. unfold array_ops.zeros_like, ops.add_float. unfold_monad.
  rewrite dtype_of_snoc, shape_of_snoc.
  destruct (zeros_node_meta g y) as [-> ->].
  destruct (accepts_python_float _); [| reflexivity].
  rewrite <- !app_assoc, !length_app. cbn [List.length app].
  repeat (f_equal; try lia).
Qed.

Lemma dual_placeholders_reject (ys : list Tensor) :
  forall (g : Graph) (y : Tensor) (n : Node),
    In y ys -> nth_error g y = Some n ->
    accepts_python_float (dtype n) = false ->
    exists g',
      dual_placeholders ys g = (Err TypeError, g')
      /\ List.length g < List.length g'.
Proof.
  induction ys as [| y0 ys IH]; intros g y n Hin Hy Hd; [destruct Hin |].
  unfold dual_placeholders. cbn [mapM]. unfold bind at 1.
  rewrite dual_placeholder_step.
  destruct (accepts_python_float (dtype_of g y0)) eqn:Hf.
  - destruct Hin as [Heq | Hin];
      [subst; unfold dtype_of in Hf; rewrite Hy in Hf; congruence |].
    match goal with
    | |- exists _, bind _ _ ?g1 = _ /\ _ =>
        destruct (IH g1 y n Hin (nth_error_app_some _ _ _ _ Hy) Hd)
          as (g' & Hg' & Hlen)
    end.
    exists g'. split; [apply bind_err; exact Hg' |].
    rewrite length_app in Hlen. lia.
  - eexists. split; [reflexivity |]. rewrite length_app. cbn. lia.
Qed.

(** C9 (as amended): when some element of [ys] has an integer dtype or is
    bool, [fwd_gradients] raises while it builds the dual placeholders (the
    float NaN cannot be converted to that dtype): the call stops with the
    [TypeError] and the graph that [dual_placeholders] alone leaves.  Nothing
    is rejected up front: nodes have been registered when the error is
    raised. *)
Theorem fwd_gradients_rejects_integer_outputs
        (g : Graph) (ys xs : list Tensor) (grad_xs : option (list Tensor))
        (assert_unused : bool) (y : Tensor) (n : Node) :
  In y ys -> nth_error g y = Some n ->
  accepts_python_float (dtype n) = false ->
  exists g',
    dual_placeholders ys g = (Err TypeError, g')
    /\ fwd_gradients ys xs grad_xs assert_unused g = (Err TypeError, g')
    /\ List.length g < List.length g'.
Proof.
  intros Hin Hy Hd.
  destruct (dual_placeholders_reject ys g y n Hin Hy Hd) as (g' & Hg' & Hlen).
  exists g'. split; [exact Hg' |]. split; [| exact Hlen].
  unfold fwd_gradients, fwd_gradients_dydxs.
  apply bind_err, bind_err. exact Hg'.
Qed.

Lemma fwd_gradients_rejects_integer_outputs_witness :
  exists g',
    dual_placeholders [1%nat; 0%nat] [int_input; scalar_input]
      = (Err TypeError, g')
    /\ fwd_gradients [1%nat; 0%nat] [1%nat] None false
         [int_input; scalar_input] = (Err TypeError, g')
    /\ List.length [int_input; scalar_input] < List.length g'.
Proof.
  apply (fwd_gradients_rejects_integer_outputs [int_input; scalar_input]
           [1%nat; 0%nat] [1%nat] None false 0%nat int_input).
  - simpl. auto.
  - reflexivity.
  - reflexivity.
Defined.

(** C9 (as stated, refuted): not every dtype that is not floating point is
    refused.  A complex [y] is not floating point, and its dual placeholder
    is built. *)
Lemma fwd_gradients_non_floating_counterexample :
  ~ (forall (g : Graph) (ys : list Tensor) (y : Tensor) (n : Node),
        In y ys -> nth_error g y = Some n ->
        is_floating (dtype n) = false ->
        exists e g', dual_placeholders ys g = (Err e, g')).
Proof.
  intros H.
  destruct (H [complex_input] [0] 0 complex_input
              (or_introl eq_refl) eq_refl eq_refl) as (e & g' & He).
  vm_compute in He. discriminate He.
Qed.

(** ** The result is the second call's output *)

Lemma bind_ret_r {A} (m : M A) (g : Graph) :
  bind m (fun a => ret a) g = m g.
Proof.
  unfold bind, ret. destruct (m g) as [[a | e] g1]; reflexivity.
Qed.

(** C10: the returned [dysdx] is the raw output of the second [gradients]
    call, run on the graph the first stage leaves; nothing is applied to it
    afterwards, and a caller can receive a [None] entry (a [y] that no [x]
    influences) or a sparse/indexed entry. *)
Theorem fwd_gradients_returns_raw_gradients :
  (forall ys xs grad_xs assert_unused g,
      fwd_gradients ys xs grad_xs assert_unused g =
      match fwd_gradients_dydxs ys xs assert_unused g with
      | (Ok p, g1) => gradients (snd p) (fst p) grad_xs g1
      | (Err e, g1) => (Err e, g1)
      end)
  /\ fst (fwd_gradients [3] [0] (Some [4]) false product_graph) = Ok [None]
  /\ (exists s,
         fst (fwd_gradients [1] [0] (Some [2]) false segment_sum_graph)
         = Ok [Some (Sparse s)]).
Proof.
  split; [| split].
  - intros. unfold fwd_gradients. unfold bind at 1.
    destruct (fwd_gradients_dydxs _ _ _ _) as [[p | e] g1];
      [apply bind_ret_r | reflexivity].
  - vm_compute. reflexivity.
  - eexists. vm_compute. reflexivity.
Qed.

(** C1 (the code at a failing input): [y = x2] does not depend on [x1]; the
    result has one entry, as [ys] has, but the entry is [None], which has no
    shape. *)
Theorem fwd_gradients_unconnected_output :
  fst (fwd_gradients [1] [0] None false product_graph) = Ok [None].
Proof. vm_compute. reflexivity. Qed.

(** C5 (the code at a failing input): the constant at handle 3 does not
    influence [y = x1 * x2]; with [assert_unused] the call raises a
    [TypeError], because the [None] of the first pass reaches
    [control_dependencies] before it is replaced by zeros. *)
Theorem fwd_gradients_independent_x_asserted :
  fst (fwd_gradients [2] [0; 3] (Some [3; 4]) true product_graph)
  = Err TypeError.
Proof. vm_compute. reflexivity. Qed.

(** The same call without [assert_unused] returns, and its result is the
    one of the call without the independent [x]. *)
Lemma fwd_gradients_independent_x (feed : Tensor -> Z) :
  exists t g t' g',
    fwd_gradients [2] [0; 3] (Some [3; 4]) false product_graph
    = (Ok [Some (Dense t)], g)
    /\ fwd_gradients [2] [0] (Some [3]) false product_graph
       = (Ok [Some (Dense t')], g')
    /\ eval g feed t = eval g' feed t'.
Proof.
  do 4 eexists. split; [vm_compute; reflexivity |].
  split; [vm_compute; reflexivity |]. reflexivity.
Qed.

(** C6 (the code at a failing input): for [xs] with an [x] that influences
    no [y], the call without [assert_unused] returns a result that evaluates,
    and the call with [assert_unused] raises while the graph is built. *)
Theorem fwd_gradients_assert_unused_diverges (feed : Tensor -> Z) :
  (exists t g,
      fwd_gradients [2] [0; 3] (Some [3; 4]) false product_graph
      = (Ok [Some (Dense t)], g)
      /\ eval g feed t = Ok (Fin (feed 1)))
  /\ (exists g,
         fwd_gradients [2] [0; 3] (Some [3; 4]) true product_graph
         = (Err TypeError, g)).
Proof.
  split.
  - do 2 eexists. split; [vm_compute; reflexivity |].
    cbv -[Z.add Z.mul]. do 2 f_equal. lia.
  - eexists. vm_compute. reflexivity.
Qed.

(** When every [x] influences [y], the instrumented call behaves as the
    claim says: its result evaluates to the same number, and its [dydxs]
    fail with the injected assertion. *)
Lemma fwd_gradients_assert_unused_product (feed : Tensor -> Z) :
  (exists t g t' g',
      fwd_gradients [2] [0; 1] (Some [3; 4]) true product_graph
      = (Ok [Some (Dense t)], g)
      /\ fwd_gradients [2] [0; 1] (Some [3; 4]) false product_graph
         = (Ok [Some (Dense t')], g')
      /\ eval g feed t = eval g' feed t')
  /\ (exists us dydxs g,
         fwd_gradients_dydxs [2] [0; 1] true product_graph
         = (Ok (us, dydxs), g)
         /\ Forall (fun t => eval g feed t
                             = Err (InvalidArgumentError "fwd_gradients"))
              dydxs).
Proof.
  split.
  - do 4 eexists. split; [vm_compute; reflexivity |].
    split; [vm_compute; reflexivity |].
    cbv -[Z.add Z.mul]. reflexivity.
  - do 3 eexists. split; [vm_compute; reflexivity |].
    repeat constructor.
Qed.

(** ** Sparse entries of the first pass *)

Lemma densified_mono (g' ext : Graph) (n0 n1 : nat) dydx r :
  n1 <= n0 -> densified g' n0 dydx r -> densified (g' ++ ext) n1 dydx r.
Proof.
  intros Hn. destruct dydx as [[t | s] |]; cbn; auto.
  intros (t & nd & -> & Ht & Hnd & Hop & Hsh).
  exists t, nd. repeat split; auto; [lia |].
  now apply nth_error_app_some.
Qed.

Lemma to_dense_spec (dydx : option TensorLike) (g : Graph) :
  exists r ext,
    to_dense dydx g = (Ok r, g ++ ext)
    /\ densified (g ++ ext) (List.length g) dydx r.
Proof.
  destruct dydx as [[t | s] |].
  - exists (Some t), []. rewrite app_nil_r. split; reflexivity.
  - unfold to_dense, ops.convert_to_tensor. unfold_monad.
    eexists _, [_]. split; [reflexivity |].
    cbn. eexists _, _. split; [reflexivity |].
    split; [apply Nat.le_refl |]. split; [apply nth_error_snoc |].
    split; reflexivity.
  - exists None, []. rewrite app_nil_r. split; reflexivity.
Qed.

Lemma mapM_to_dense_spec (dydxs : list (option TensorLike)) :
  forall g,
  exists l ext,
    mapM to_dense dydxs g = (Ok l, g ++ ext)
    /\ Forall2 (densified (g ++ ext) (List.length g)) dydxs l.
Proof.
  induction dydxs as [| d ds IH]; intros g.
  - exists [], []. rewrite app_nil_r. split; [reflexivity | constructor].
  - destruct (to_dense_spec d g) as (r & e1 & Hr & Hd).
    destruct (IH (g ++ e1)) as (l & e2 & Hl & Hds).
    exists (r :: l), (e1 ++ e2). cbn [mapM].
    rewrite (bind_ok _ _ _ _ _ Hr), (bind_ok _ _ _ _ _ Hl).
    rewrite app_assoc. split; [reflexivity |].
    constructor.
    + eapply densified_mono; [apply Nat.le_refl | exact Hd].
    + eapply Forall2_impl; [| exact Hds].
      intros x o Hx.
      destruct x as [[t | s] |]; cbn in *; auto.
      destruct Hx as (t & nd & -> & Ht & Hnd & Hop & Hsh).
      exists t, nd. rewrite length_app in Ht.
      split; [reflexivity |]. split; [lia |]. auto.
Qed.

(** On [y = gather(x)] the first pass returns a sparse derivative, and the
    call returns the directional derivative with and without the
    instrumentation. *)
Lemma gather_example :
  (exists us g1 s,
      dual_placeholders [1] gather_graph = (Ok us, g1)
      /\ fst (gradients [1] [0] (Some us) g1) = Ok [Some (Sparse s)])
  /\ (forall (feed : Tensor -> Z) assert_unused,
         exists t g,
           fwd_gradients [1] [0] (Some [2]) assert_unused gather_graph
           = (Ok [Some (Dense t)], g)
           /\ eval g feed t = Ok (Fin 3%Z)).
Proof.
  split.
  - do 3 eexists. split; vm_compute; reflexivity.
  - intros feed [|]; do 2 eexists; split; vm_compute; reflexivity.
Qed.

(** ** Running an extended graph *)

Section Running.

Variable feed : Tensor -> Z.

Lemma run_from_app (g e : Graph) :
  forall vals,
    run_from feed vals (g ++ e) = run_from feed (run_from feed vals g) e.
Proof.
  induction g as [| n g IH]; intros vals; cbn; [reflexivity | apply IH].
Qed.

Lemma run_from_prefix (g : Graph) :
  forall vals, exists more,
    run_from feed vals g = vals ++ more /\ List.length more = List.length g.
Proof.
  induction g as [| n g IH]; intros vals; cbn.
  - exists []. now rewrite app_nil_r.
  - destruct (IH (vals ++ [run_node feed vals n])) as (more & Hm & Hl).
    exists (run_node feed vals n :: more).
    rewrite Hm, <- app_assoc. cbn. auto.
Qed.

Lemma run_length (g : Graph) : List.length (run feed g) = List.length g.
Proof.
  unfold run. destruct (run_from_prefix g []) as (more & -> & Hl).
  exact Hl.
Qed.

Lemma run_app (g e : Graph) :
  exists more, run feed (g ++ e) = run feed g ++ more.
Proof.
  unfold run. rewrite run_from_app.
  destruct (run_from_prefix e (run_from feed [] g)) as (more & Hm & _).
  eauto.
Qed.

(** Nodes registered later do not change what an existing node computes. *)
Lemma eval_app (g e : Graph) (t : Tensor) :
  t < List.length g -> eval (g ++ e) feed t = eval g feed t.
Proof.
  intros Ht. unfold eval, fetch.
  destruct (run_app g e) as (more & ->).
  rewrite nth_error_app1; [reflexivity | now rewrite run_length].
Qed.

Lemma eval_snoc (g : Graph) (n : Node) :
  eval (g ++ [n]) feed (List.length g) = run_node feed (run feed g) n.
Proof.
  unfold eval, fetch, run. rewrite run_from_app. cbn.
  fold (run feed g). rewrite <- (run_length g). now rewrite nth_error_snoc.
Qed.

Lemma eval_outside (g : Graph) (t : Tensor) :
  List.length g <= t -> eval g feed t = Err NotFoundError.
Proof.
  intros Ht. unfold eval, fetch.
  replace (nth_error (run feed g) t) with (@None Value); [reflexivity |].
  symmetry. apply nth_error_None. now rewrite run_length.
Qed.

End Running.

(** ** The frame of a call: old nodes are never touched *)

Section Frame.

Variable pre : Graph.

Lemma keeps_ret {A} (a : A) (Q : A -> Prop) : Q a -> keeps pre (ret a) Q.
Proof. intros H rest. exists (Ok a), rest. split; [reflexivity | exact H]. Qed.

Lemma keeps_raise {A} (e : PyError) (Q : A -> Prop) : keeps pre (raise e) Q.
Proof. intros rest. exists (Err e), rest. split; [reflexivity | exact I]. Qed.

Lemma keeps_bind {A B} (m : M A) (f : A -> M B) (Q : A -> Prop)
      (R : B -> Prop) :
  keeps pre m Q -> (forall a, Q a -> keeps pre (f a) R) ->
  keeps pre (bind m f) R.
Proof.
  intros Hm Hf rest. destruct (Hm rest) as ([a | e] & r1 & Hr & HQ).
  - destruct (Hf a HQ r1) as (r & r2 & Hr2 & HR).
    exists r, r2. now rewrite (bind_ok _ _ _ _ _ Hr).
  - exists (Err e), r1. now rewrite (bind_err _ _ _ _ _ Hr).
Qed.

Lemma keeps_weaken {A} (m : M A) (Q Q' : A -> Prop) :
  keeps pre m Q -> (forall a, Q a -> Q' a) -> keeps pre m Q'.
Proof.
  intros Hm HQ rest. destruct (Hm rest) as (r & r1 & Hr & H).
  exists r, r1. split; [exact Hr |]. destruct r; auto.
Qed.

Lemma keeps_add_node (n : Node) :
  keeps pre (add_node n) (fun t => List.length pre <= t).
Proof.
  intros rest. exists (Ok (List.length (pre ++ rest))), (rest ++ [n]).
  unfold add_node. rewrite app_assoc. split; [reflexivity |].
  rewrite length_app. lia.
Qed.

Lemma keeps_read {A} (f : Graph -> A) :
  keeps pre (fun g => (Ok (f g), g)) (fun _ => True).
Proof. intros rest. exists (Ok (f (pre ++ rest))), rest. auto. Qed.

Lemma keeps_mapM {A B} (f : A -> M B) (P : A -> Prop) (Q : B -> Prop) :
  (forall a, P a -> keeps pre (f a) Q) ->
  forall l, Forall P l -> keeps pre (mapM f l) (Forall Q).
Proof.
  intros Hf l. induction l as [| a l IH]; intros Hl; cbn [mapM].
  - apply keeps_ret. constructor.
  - inversion Hl; subst.
    eapply keeps_bind; [apply Hf; assumption |]. intros b Hb.
    eapply keeps_bind; [apply IH; assumption |]. intros bs Hbs.
    apply keeps_ret. now constructor.
Qed.

Lemma list_update_app_r {A} (l : list A) :
  forall (r : list A) (i : nat) (a : A),
    List.length l <= i ->
    list_update (l ++ r) i a = l ++ list_update r (i - List.length l) a.
Proof.
  induction l as [| x l IH]; intros r i a Hi; cbn.
  - now rewrite Nat.sub_0_r.
  - destruct i as [| i]; cbn in Hi; [lia |].
    cbn. f_equal. apply IH. lia.
Qed.

(** [set_shape] rewrites the node it is called on; on a node that is not
    among [pre], the nodes of [pre] stay as they are. *)
Lemma keeps_set_shape (t : Tensor) (s : TensorShape) :
  List.length pre <= t -> keeps pre (ops.set_shape t s) (fun _ => True).
Proof.
  intros Ht rest. unfold ops.set_shape.
  destruct (nth_error (pre ++ rest) t) as [n |];
    [| exists (Err ValueError), rest; auto].
  destruct (ops.merge_with (shape n) s) as [s' | e];
    [| exists (Err e), rest; auto].
  eexists (Ok tt), _. split; [| exact I].
  now rewrite list_update_app_r.
Qed.

Lemma keeps_like (t : Tensor) (o : Op) :
  keeps pre (like t o) (fun t' => List.length pre <= t').
Proof.
  unfold like, get_dtype, get_shape.
  eapply keeps_bind; [apply keeps_read |]. intros d _.
  eapply keeps_bind; [apply keeps_read |]. intros s _.
  apply keeps_add_node.
Qed.

Lemma keeps_zeros_like (t : Tensor) :
  keeps pre (array_ops.zeros_like t) (fun t' => List.length pre <= t').
Proof.
  intros rest. unfold array_ops.zeros_like.
  apply (keeps_add_node (array_ops.zeros_node (pre ++ rest) t) rest).
Qed.

Lemma keeps_add_float (t : Tensor) (v : scalar) :
  keeps pre (ops.add_float t v) (fun t' => List.length pre <= t').
Proof.
  unfold ops.add_float, get_dtype, get_shape.
  eapply keeps_bind; [apply keeps_read |]. intros d _.
  eapply keeps_bind; [apply keeps_read |]. intros s _.
  destruct (accepts_python_float d); [| apply keeps_raise].
  eapply keeps_bind; [apply keeps_add_node |]. intros c _.
  apply keeps_add_node.
Qed.

Lemma keeps_convert_to_tensor (s : IndexedSlices) :
  keeps pre (ops.convert_to_tensor s) (fun t' => List.length pre <= t').
Proof.
  unfold ops.convert_to_tensor, get_dtype.
  eapply keeps_bind; [apply keeps_read |]. intros d _.
  apply keeps_add_node.
Qed.

Lemma keeps_control_dependencies (l : list (option Tensor)) :
  keeps pre (ops.control_dependencies l) (fun _ => True).
Proof.
  induction l as [| [t |] l IH]; cbn [ops.control_dependencies].
  - now apply keeps_ret.
  - eapply keeps_bind; [exact IH |]. intros ts _. now apply keeps_ret.
  - apply keeps_raise.
Qed.

Lemma keeps_identity_nodes (ctrl : list Tensor) (l : list (option Tensor)) :
  keeps pre (array_ops.identity_nodes ctrl l)
    (Forall (fun t' => List.length pre <= t')).
Proof.
  induction l as [| [t |] l IH]; cbn [array_ops.identity_nodes].
  - apply keeps_ret. constructor.
  - unfold get_dtype, get_shape.
    eapply keeps_bind; [apply keeps_read |]. intros d _.
    eapply keeps_bind; [apply keeps_read |]. intros s _.
    eapply keeps_bind; [apply keeps_add_node |]. intros i Hi.
    eapply keeps_bind; [exact IH |]. intros rest Hrest.
    apply keeps_ret. now constructor.
  - apply keeps_raise.
Qed.

Lemma keeps_identity_n (ctrl : list Tensor) (l : list (option Tensor)) :
  keeps pre (array_ops.identity_n ctrl l)
    (Forall (fun t' => List.length pre <= t')).
Proof.
  unfold array_ops.identity_n. destruct l;
    [apply keeps_raise | apply keeps_identity_nodes].
Qed.

End Frame.

Section GradientsFrame.

Variable pre : Graph.
Variable lo : nat.
Hypothesis lo_le : lo <= List.length pre.

Lemma keeps_as_tensor (x : TensorLike) :
  above lo x -> keeps pre (as_tensor x) (fun t => lo <= t).
Proof.
  destruct x as [t | s]; intros Hx; cbn [as_tensor].
  - now apply keeps_ret.
  - eapply keeps_weaken; [apply keeps_convert_to_tensor |].
    cbn beta. intros. lia.
Qed.

Lemma keeps_like_lo (t : Tensor) (o : Op) :
  keeps pre (like t o) (fun t' => lo <= t').
Proof.
  eapply keeps_weaken; [apply keeps_like |]. cbn beta. intros. lia.
Qed.

Lemma keeps_aggregated (self : Tensor) (l : list TensorLike) :
  Forall (above lo) l -> keeps pre (aggregated self l) (opt_above lo).
Proof.
  intros Hl. unfold aggregated.
  destruct l as [| x [| y l]].
  - now apply keeps_ret.
  - apply keeps_ret. now inversion Hl.
  - eapply keeps_bind; [apply (keeps_mapM pre _ _ _ keeps_as_tensor _ Hl) |].
    intros ts _. eapply keeps_bind; [apply keeps_like_lo |].
    intros t Ht. now apply keeps_ret.
Qed.

Lemma keeps_op_grad (o : Op) (gr : TensorLike) :
  above lo gr ->
  keeps pre (op_grad o gr) (Forall (fun c => above lo (snd c))).
Proof.
  intros Hgr.
  destruct o; cbn [op_grad];
    try solve [apply keeps_ret; repeat constructor; exact Hgr];
    (eapply keeps_bind; [apply keeps_as_tensor; exact Hgr |]);
    intros d Hd.
  - apply keeps_ret. repeat constructor; exact Hd.
  - apply keeps_ret. apply Forall_map, Forall_forall. intros; exact Hd.
  - eapply keeps_bind; [apply keeps_like_lo |]. intros ga Hga.
    eapply keeps_bind; [apply keeps_like_lo |]. intros gb Hgb.
    apply keeps_ret. repeat constructor; assumption.
  - unfold get_shape. eapply keeps_bind; [apply keeps_read |]. intros s _.
    apply keeps_ret. repeat constructor. exact Hd.
  - eapply keeps_bind; [apply keeps_like_lo |]. intros e He.
    apply keeps_ret. repeat constructor. exact He.
Qed.

Lemma push_above (pend : Pending) (c : Tensor * TensorLike) :
  pending_above lo pend -> above lo (snd c) -> pending_above lo (push pend c).
Proof.
  intros Hp Hc i. unfold push. destruct (Nat.eqb i (fst c)); [| apply Hp].
  apply Forall_app. split; [apply Hp | now constructor].
Qed.

Lemma push_all_above (cs : list (Tensor * TensorLike)) :
  forall pend,
    pending_above lo pend -> Forall (fun c => above lo (snd c)) cs ->
    pending_above lo (push_all pend cs).
Proof.
  unfold push_all.
  induction cs as [| c cs IH]; intros pend Hp Hcs; cbn; [exact Hp |].
  inversion Hcs; subst. apply IH; [now apply push_above | assumption].
Qed.

Lemma record_above (grads : Grads) (t : Tensor) (gr : TensorLike) :
  grads_above lo grads -> above lo gr -> grads_above lo (record grads t gr).
Proof.
  intros Hg Hgr k. unfold record. destruct (Nat.eqb k t); [exact Hgr | apply Hg].
Qed.

Lemma keeps_backprop (k : nat) :
  forall pend grads,
    pending_above lo pend -> grads_above lo grads ->
    keeps pre (backprop k pend grads) (grads_above lo).
Proof.
  induction k as [| i IH]; intros pend grads Hp Hg; cbn [backprop].
  - now apply keeps_ret.
  - eapply keeps_bind; [apply keeps_aggregated, Hp |].
    intros [gr |] Ha; [| now apply IH].
    unfold get_op. eapply keeps_bind; [apply keeps_read |]. intros o _.
    eapply keeps_bind; [apply keeps_op_grad; exact Ha |]. intros cs Hcs.
    apply IH; [now apply push_all_above | now apply record_above].
Qed.

Lemma keeps_default_grad_ys (ys : list Tensor)
      (grad_ys : option (list Tensor)) :
  match grad_ys with
  | Some l => Forall (fun t => lo <= t) l
  | None => True
  end ->
  keeps pre (default_grad_ys ys grad_ys) (Forall (fun t => lo <= t)).
Proof.
  intros H. unfold default_grad_ys. destruct grad_ys as [l |].
  - destruct (Nat.eqb _ _); [now apply keeps_ret | apply keeps_raise].
  - apply (keeps_mapM pre _ (fun _ => True)).
    + intros y _. apply keeps_like_lo.
    + apply Forall_forall. auto.
Qed.

Lemma keeps_gradients (ys xs : list Tensor) (grad_ys : option (list Tensor)) :
  match grad_ys with
  | Some l => Forall (fun t => lo <= t) l
  | None => True
  end ->
  keeps pre (gradients ys xs grad_ys) (Forall (opt_above lo)).
Proof.
  intros H. unfold gradients, graph_size.
  eapply keeps_bind; [apply keeps_read |]. intros n _.
  eapply keeps_bind; [apply keeps_default_grad_ys, H |]. intros seeds Hs.
  eapply keeps_bind.
  - apply keeps_backprop; [| intros t; exact I].
    apply push_all_above; [intros i; constructor |].
    clear - Hs. revert ys. induction Hs as [| s l Hs Hl IH]; intros [| y ys];
      cbn; constructor; auto.
  - intros grads Hg. apply keeps_ret.
    apply Forall_map, Forall_forall. intros x _. apply Hg.
Qed.

End GradientsFrame.

Lemma Forall_combine_snd {A B} (P : B -> Prop) (l2 : list B) :
  Forall P l2 ->
  forall l1 : list A, Forall (fun p => P (snd p)) (combine l1 l2).
Proof.
  induction 1 as [| b l2 Hb Hl IH]; intros [| a l1]; cbn; constructor; auto.
Qed.

Section CallFrame.

Variable pre : Graph.

Lemma keeps_dual_placeholders (ys : list Tensor) :
  keeps pre (dual_placeholders ys) (Forall (fresh pre)).
Proof.
  unfold dual_placeholders. apply (keeps_mapM pre _ (fun _ => True)).
  - intros y _. eapply keeps_bind; [apply keeps_zeros_like |].
    intros z _. apply keeps_add_float.
  - apply Forall_forall. auto.
Qed.

Lemma keeps_to_dense (dydx : option TensorLike) :
  opt_above (List.length pre) dydx ->
  keeps pre (to_dense dydx) (opt_from (List.length pre)).
Proof.
  destruct dydx as [[t | s] |]; intros H; cbn [to_dense].
  - now apply keeps_ret.
  - eapply keeps_bind; [apply keeps_convert_to_tensor |].
    intros t Ht. now apply keeps_ret.
  - now apply keeps_ret.
Qed.

Lemma keeps_instrument (assert_unused : bool)
      (dydxs : list (option Tensor)) :
  Forall (opt_from (List.length pre)) dydxs ->
  keeps pre (instrument assert_unused dydxs)
    (Forall (opt_from (List.length pre))).
Proof.
  intros H. unfold instrument. destruct assert_unused.
  - eapply keeps_bind; [apply keeps_control_dependencies |]. intros ctrl _.
    unfold control_flow_ops.Assert.
    eapply keeps_bind; [apply keeps_add_node |]. intros a _.
    eapply keeps_bind; [apply keeps_identity_n |]. intros ids Hids.
    apply keeps_ret. apply Forall_map. exact Hids.
  - now apply keeps_ret.
Qed.

Lemma keeps_or_zeros (p : Tensor * option Tensor) :
  opt_from (List.length pre) (snd p) -> keeps pre (or_zeros p) (fresh pre).
Proof.
  unfold or_zeros. destruct (snd p) as [t |]; intros H.
  - now apply keeps_ret.
  - apply keeps_zeros_like.
Qed.

Lemma keeps_force_shape (p : Tensor * Tensor) :
  fresh pre (snd p) -> keeps pre (force_shape p) (fun _ => True).
Proof.
  intros H. unfold force_shape, get_shape.
  eapply keeps_bind; [apply keeps_read |]. intros s _.
  now apply keeps_set_shape.
Qed.

(** The first stage returns dual placeholders and derivatives that are all
    nodes of its own, and leaves the caller's nodes as they were. *)
Lemma keeps_fwd_gradients_dydxs (ys xs : list Tensor) (assert_unused : bool) :
  keeps pre (fwd_gradients_dydxs ys xs assert_unused)
    (fun p => Forall (fresh pre) (fst p) /\ Forall (fresh pre) (snd p)).
Proof.
  unfold fwd_gradients_dydxs.
  eapply keeps_bind; [apply keeps_dual_placeholders |]. intros us Hus.
  eapply keeps_bind;
    [apply (keeps_gradients pre (List.length pre) (Nat.le_refl _));
     exact Hus |].
  intros d1 Hd1.
  eapply keeps_bind; [apply (keeps_mapM pre _ _ _ keeps_to_dense _ Hd1) |].
  intros d2 Hd2.
  eapply keeps_bind; [apply keeps_instrument, Hd2 |]. intros d3 Hd3.
  eapply keeps_bind;
    [apply (keeps_mapM pre _ _ _ keeps_or_zeros),
       (Forall_combine_snd _ _ Hd3) |].
  intros d4 Hd4.
  eapply keeps_bind;
    [apply (keeps_mapM pre _ _ _ keeps_force_shape),
       (Forall_combine_snd _ _ Hd4) |].
  intros _ _. apply keeps_ret. split; assumption.
Qed.

Lemma keeps_fwd_gradients (ys xs : list Tensor)
      (grad_xs : option (list Tensor)) (assert_unused : bool) :
  keeps pre (fwd_gradients ys xs grad_xs assert_unused) (fun _ => True).
Proof.
  unfold fwd_gradients.
  eapply keeps_bind; [apply keeps_fwd_gradients_dydxs |]. intros p _.
  eapply keeps_bind.
  - apply (keeps_gradients pre 0 (Nat.le_0_l _)).
    destruct grad_xs; [| exact I]. apply Forall_forall. intros; lia.
  - intros dysdx _. now apply keeps_ret.
Qed.

End CallFrame.

(** C8: a call changes nothing the caller holds.  The sequences [ys], [xs]
    and [grad_xs] are values the function only reads; the graph after the
    call, whether the call returns or raises, is the graph before it followed
    by newly registered nodes, so every node that existed before the call,
    the caller's tensors among them, is left as it was. *)
Theorem fwd_gradients_only_registers_nodes
        (g : Graph) (ys xs : list Tensor) (grad_xs : option (list Tensor))
        (assert_unused : bool) :
  exists r new_nodes,
    fwd_gradients ys xs grad_xs assert_unused g = (r, g ++ new_nodes).
Proof.
  destruct (keeps_fwd_gradients g ys xs grad_xs assert_unused [])
    as (r & new_nodes & H & _).
  rewrite app_nil_r in H. eauto.
Qed.

(** ** Well-formedness is kept by the construction *)

Lemma node_ok_mono (k k' : nat) (n : Node) :
  k <= k' -> node_ok k n -> node_ok k' n.
Proof.
  intros Hk [H1 H2]. split; (eapply Forall_impl; [| eassumption]);
    unfold below; intros; lia.
Qed.

Lemma closed_snoc (g : Graph) (n : Node) :
  closed g -> node_ok (List.length g) n -> closed (g ++ [n]).
Proof.
  intros Hg Hn. unfold closed. rewrite length_app. cbn.
  apply Forall_app. split.
  - eapply Forall_impl; [| exact Hg]. intros a. apply node_ok_mono. lia.
  - constructor; [| constructor]. eapply node_ok_mono; [| exact Hn]. lia.
Qed.

Lemma closed_lookup (g : Graph) (i : nat) (n : Node) :
  closed g -> nth_error g i = Some n -> node_ok (List.length g) n.
Proof.
  intros Hg Hi. unfold closed in Hg. rewrite Forall_forall in Hg.
  apply Hg. eapply nth_error_In. exact Hi.
Qed.

Lemma length_list_update {A} (l : list A) :
  forall i a, List.length (list_update l i a) = List.length l.
Proof.
  induction l as [| x l IH]; intros [| i] a; cbn; auto.
Qed.

Lemma Forall_list_update {A} (P : A -> Prop) (l : list A) :
  forall i a, Forall P l -> P a -> Forall P (list_update l i a).
Proof.
  induction l as [| x l IH]; intros [| i] a Hl Ha; cbn; auto;
    inversion Hl; subst; constructor; auto.
Qed.

Section Within.

Lemma within_ret {A} (k : nat) (a : A) (Q : nat -> A -> Prop) :
  (forall k', k <= k' -> Q k' a) -> within k (ret a) Q.
Proof.
  intros H g Hg Hk. exists (Ok a), g. repeat split; auto.
Qed.

Lemma within_raise {A} (k : nat) (e : PyError) (Q : nat -> A -> Prop) :
  within k (raise e) Q.
Proof.
  intros g Hg Hk. exists (Err e), g. repeat split; auto.
Qed.

Lemma within_bind {A B} (k : nat) (m : M A) (f : A -> M B)
      (Q : nat -> A -> Prop) (R : nat -> B -> Prop) :
  within k m Q ->
  (forall a k', k <= k' -> Q k' a -> within k' (f a) R) ->
  within k (bind m f) R.
Proof.
  intros Hm Hf g Hg Hk.
  destruct (Hm g Hg Hk) as ([a | e] & g1 & Hr & Hc & Hl & HQ).
  - destruct (Hf a (List.length g1) ltac:(lia) HQ g1 Hc (Nat.le_refl _))
      as (r & g2 & Hr2 & Hc2 & Hl2 & HR).
    exists r, g2. rewrite (bind_ok _ _ _ _ _ Hr).
    repeat split; auto. lia.
  - exists (Err e), g1. rewrite (bind_err _ _ _ _ _ Hr). repeat split; auto.
Qed.

Lemma within_weaken {A} (k : nat) (m : M A) (Q Q' : nat -> A -> Prop) :
  within k m Q -> (forall k' a, k <= k' -> Q k' a -> Q' k' a) ->
  within k m Q'.
Proof.
  intros Hm HQ g Hg Hk. destruct (Hm g Hg Hk) as (r & g1 & Hr & Hc & Hl & H).
  exists r, g1. repeat split; auto. destruct r; auto. apply HQ; [lia | auto].
Qed.

Lemma within_add_node (k : nat) (n : Node) :
  node_ok k n -> within k (add_node n) below.
Proof.
  intros Hn g Hg Hk. exists (Ok (List.length g)), (g ++ [n]).
  split; [reflexivity |]. split; [| rewrite length_app; cbn; unfold below; lia].
  apply closed_snoc; [exact Hg |]. eapply node_ok_mono; [| exact Hn]. exact Hk.
Qed.

Lemma within_read {A} (k : nat) (f : Graph -> A) :
  within k (fun g => (Ok (f g), g)) (fun _ _ => True).
Proof. intros g Hg Hk. exists (Ok (f g)), g. repeat split; auto. Qed.

Lemma within_get_op (k : nat) (t : Tensor) :
  within k (get_op t) (fun k' o => Forall (below k') (op_inputs o)).
Proof.
  intros g Hg Hk. eexists (Ok _), g. split; [reflexivity |].
  repeat split; auto.
  destruct (nth_error g t) as [n |] eqn:Hn; [| constructor].
  apply (closed_lookup g t n Hg Hn).
Qed.

Lemma within_mapM {A B} (f : A -> M B) (P : A -> Prop)
      (Q : nat -> B -> Prop) :
  (forall k k' b, k <= k' -> Q k b -> Q k' b) ->
  forall l k,
    (forall a k', k <= k' -> P a -> within k' (f a) Q) ->
    Forall P l ->
    within k (mapM f l) (fun k' bs => Forall (Q k') bs).
Proof.
  intros Hmono l. induction l as [| a l IH]; intros k Hf Hl; cbn [mapM].
  - apply within_ret. constructor.
  - inversion Hl; subst.
    eapply within_bind; [apply Hf; [lia | assumption] |]. intros b k1 Hk1 Hb.
    eapply within_bind.
    + apply IH; [| assumption]. intros a' k' Hk' Ha'. apply Hf; [lia | auto].
    + intros bs k2 Hk2 Hbs. apply within_ret. intros k3 Hk3.
      constructor.
      * apply (Hmono k1); [lia | exact Hb].
      * eapply Forall_impl; [| exact Hbs]. intros b'. apply Hmono. lia.
Qed.

Lemma within_set_shape (k : nat) (t : Tensor) (s : TensorShape) :
  within k (ops.set_shape t s) (fun _ _ => True).
Proof.
  intros g Hg Hk. unfold ops.set_shape.
  destruct (nth_error g t) as [n |] eqn:Hn;
    [| exists (Err ValueError), g; repeat split; auto].
  destruct (ops.merge_with (shape n) s) as [s' | e];
    [| exists (Err e), g; repeat split; auto].
  eexists (Ok tt), _. split; [reflexivity |].
  rewrite length_list_update. repeat split; auto.
  unfold closed. rewrite length_list_update.
  apply Forall_list_update; [exact Hg |].
  apply (closed_lookup g t n Hg Hn).
Qed.

End Within.

Lemma below_mono (k k' : nat) (t : Tensor) : k <= k' -> below k t -> below k' t.
Proof. unfold below. lia. Qed.

Lemma Forall_below_mono (k k' : nat) (l : list Tensor) :
  k <= k' -> Forall (below k) l -> Forall (below k') l.
Proof.
  intros Hk. apply Forall_impl. intros t. now apply below_mono.
Qed.

Lemma handle_below_mono (k k' : nat) (x : TensorLike) :
  k <= k' -> handle_below k x -> handle_below k' x.
Proof. unfold handle_below. lia. Qed.

Lemma opt_handle_below_mono (k k' : nat) (x : option TensorLike) :
  k <= k' -> opt_handle_below k x -> opt_handle_below k' x.
Proof. destruct x; cbn; [lia | auto]. Qed.

Lemma opt_below_mono (k k' : nat) (x : option Tensor) :
  k <= k' -> opt_below k x -> opt_below k' x.
Proof. destruct x; cbn; [lia | auto]. Qed.

Section WithinOps.

Lemma within_like (k : nat) (t : Tensor) (o : Op) :
  Forall (below k) (op_inputs o) -> within k (like t o) below.
Proof.
  intros Ho. unfold like, get_dtype, get_shape.
  eapply within_bind; [apply within_read |]. intros d k1 Hk1 _.
  eapply within_bind; [apply within_read |]. intros s k2 Hk2 _.
  apply within_add_node. split; [| constructor].
  cbn [op]. eapply Forall_below_mono; [| exact Ho]. lia.
Qed.

Lemma within_zeros_like (k : nat) (t : Tensor) :
  below k t -> within k (array_ops.zeros_like t) below.
Proof.
  intros Ht g Hg Hk. unfold array_ops.zeros_like.
  apply (within_add_node k (array_ops.zeros_node g t)); [| exact Hg | exact Hk].
  unfold array_ops.zeros_node.
  destruct (shape_of g t); split; cbn; constructor; [exact Ht | constructor].
Qed.

Lemma within_add_float (k : nat) (t : Tensor) (v : scalar) :
  below k t -> within k (ops.add_float t v) below.
Proof.
  intros Ht. unfold ops.add_float, get_dtype, get_shape.
  eapply within_bind; [apply within_read |]. intros d k1 Hk1 _.
  eapply within_bind; [apply within_read |]. intros s k2 Hk2 _.
  destruct (accepts_python_float d); [| apply within_raise].
  eapply within_bind.
  - apply within_add_node. split; constructor.
  - intros c k3 Hk3 Hc. apply within_add_node. split; [| constructor].
    cbn. constructor; [| constructor; [exact Hc | constructor]].
    eapply below_mono; [| exact Ht]. lia.
Qed.

Lemma within_convert_to_tensor (k : nat) (s : IndexedSlices) :
  below k (values s) -> within k (ops.convert_to_tensor s) below.
Proof.
  intros Hs. unfold ops.convert_to_tensor, get_dtype.
  eapply within_bind; [apply within_read |]. intros d k1 Hk1 _.
  apply within_add_node. split; [| constructor].
  cbn. constructor; [| constructor]. eapply below_mono; [| exact Hs]. lia.
Qed.

Lemma within_control_dependencies (l : list (option Tensor)) :
  forall k,
    Forall (opt_below k) l ->
    within k (ops.control_dependencies l)
      (fun k' ts => Forall (below k') ts).
Proof.
  induction l as [| [t |] l IH]; intros k Hl;
    cbn [ops.control_dependencies].
  - apply within_ret. constructor.
  - inversion Hl; subst.
    eapply within_bind; [apply IH; assumption |]. intros ts k1 Hk1 Hts.
    apply within_ret. intros k2 Hk2. constructor.
    + unfold below. cbn in H1. lia.
    + eapply Forall_below_mono; [| exact Hts]. lia.
  - apply within_raise.
Qed.

Lemma within_identity_nodes (ctrl : list Tensor) (l : list (option Tensor)) :
  forall k,
    Forall (below k) ctrl -> Forall (opt_below k) l ->
    within k (array_ops.identity_nodes ctrl l)
      (fun k' ts => Forall (below k') ts).
Proof.
  induction l as [| [t |] l IH]; intros k Hc Hl;
    cbn [array_ops.identity_nodes].
  - apply within_ret. constructor.
  - inversion Hl; subst. unfold get_dtype, get_shape.
    eapply within_bind; [apply within_read |]. intros d k1 Hk1 _.
    eapply within_bind; [apply within_read |]. intros s k2 Hk2 _.
    eapply within_bind.
    + apply within_add_node. split; cbn.
      * constructor; [| constructor]. unfold below. cbn in H1. lia.
      * eapply Forall_below_mono; [| exact Hc]. lia.
    + intros i k3 Hk3 Hi. eapply within_bind.
      * apply IH.
        -- eapply Forall_below_mono; [| exact Hc]. lia.
        -- eapply Forall_impl; [| exact H2]. intros o. apply opt_below_mono.
           lia.
      * intros rest k4 Hk4 Hrest. apply within_ret. intros k5 Hk5.
        constructor.
        -- eapply below_mono; [| exact Hi]. lia.
        -- eapply Forall_below_mono; [| exact Hrest]. lia.
  - apply within_raise.
Qed.

Lemma within_identity_n (ctrl : list Tensor) (l : list (option Tensor)) :
  forall k,
    Forall (below k) ctrl -> Forall (opt_below k) l ->
    within k (array_ops.identity_n ctrl l)
      (fun k' ts => Forall (below k') ts).
Proof.
  intros k Hc Hl. unfold array_ops.identity_n. destruct l;
    [apply within_raise | now apply within_identity_nodes].
Qed.

Lemma within_as_tensor (k : nat) (x : TensorLike) :
  handle_below k x -> within k (as_tensor x) below.
Proof.
  destruct x as [t | s]; intros Hx; cbn [as_tensor].
  - apply within_ret. intros k' Hk'. eapply below_mono; eassumption.
  - now apply within_convert_to_tensor.
Qed.

Lemma within_aggregated (k : nat) (self : Tensor) (l : list TensorLike) :
  Forall (handle_below k) l ->
  within k (aggregated self l) opt_handle_below.
Proof.
  intros Hl. unfold aggregated. destruct l as [| x [| y l]].
  - apply within_ret. intros; exact I.
  - apply within_ret. intros k' Hk'. inversion Hl; subst.
    eapply handle_below_mono; eassumption.
  - eapply within_bind.
    + apply (within_mapM as_tensor (handle_below k) below below_mono).
      * intros a k' Hk' Ha. apply within_as_tensor.
        eapply handle_below_mono; eassumption.
      * exact Hl.
    + intros ts k1 Hk1 Hts. eapply within_bind.
      * apply within_like. exact Hts.
      * intros t k2 Hk2 Ht. apply within_ret. intros k3 Hk3.
        cbn. unfold below in Ht. lia.
Qed.

End WithinOps.

Ltac forall_cons := repeat (apply Forall_cons || apply Forall_nil).

Section WithinGradients.

Lemma within_op_grad (k : nat) (o : Op) (gr : TensorLike) :
  Forall (below k) (op_inputs o) -> handle_below k gr ->
  within k (op_grad o gr) contribs_below.
Proof.
  intros Ho Hgr. unfold contribs_below.
  destruct o; cbn [op_grad]; cbn [op_inputs] in Ho;
    try solve [apply within_ret; intros k' Hk'; forall_cons;
               eapply handle_below_mono; eassumption];
    (eapply within_bind; [apply within_as_tensor; exact Hgr |]);
    intros d k1 Hk1 Hd; unfold below in Hd.
  - apply within_ret. intros k' Hk'.
    forall_cons; unfold handle_below; cbn; lia.
  - apply within_ret. intros k' Hk'. apply Forall_map, Forall_forall.
    intros x _. unfold handle_below; cbn. lia.
  - inversion Ho as [| ? ? Ha Ho']; subst.
    inversion Ho' as [| ? ? Hb _]; subst. unfold below in Ha, Hb.
    eapply within_bind.
    { apply within_like. cbn. forall_cons; unfold below; lia. }
    intros ga k2 Hk2 Hga. eapply within_bind.
    { apply within_like. cbn. forall_cons; unfold below; lia. }
    intros gb k3 Hk3 Hgb. apply within_ret. intros k4 Hk4.
    unfold below in Hga, Hgb.
    forall_cons; unfold handle_below; cbn; lia.
  - unfold get_shape. eapply within_bind; [apply within_read |].
    intros s k2 Hk2 _. apply within_ret. intros k3 Hk3.
    forall_cons. unfold handle_below; cbn. lia.
  - eapply within_bind.
    { apply within_like. cbn. forall_cons. exact Hd. }
    intros e k2 Hk2 He. apply within_ret. intros k3 Hk3.
    unfold below in He. forall_cons. unfold handle_below; cbn. lia.
Qed.

Lemma pending_below_mono (k k' : nat) (pend : Pending) :
  k <= k' -> pending_below k pend -> pending_below k' pend.
Proof.
  intros Hk Hp i. eapply Forall_impl; [| apply Hp].
  intros x. now apply handle_below_mono.
Qed.

Lemma grads_below_mono (k k' : nat) (grads : Grads) :
  k <= k' -> grads_below k grads -> grads_below k' grads.
Proof.
  intros Hk Hg t. eapply opt_handle_below_mono; [exact Hk | apply Hg].
Qed.

Lemma push_all_below (k : nat) (cs : list (Tensor * TensorLike)) :
  forall pend,
    pending_below k pend -> contribs_below k cs ->
    pending_below k (push_all pend cs).
Proof.
  unfold push_all, contribs_below.
  induction cs as [| c cs IH]; intros pend Hp Hcs; cbn; [exact Hp |].
  inversion Hcs; subst. apply IH; [| assumption].
  intros i. unfold push. destruct (Nat.eqb i (fst c)); [| apply Hp].
  apply Forall_app. split; [apply Hp | now constructor].
Qed.

Lemma record_below (k : nat) (grads : Grads) (t : Tensor) (gr : TensorLike) :
  grads_below k grads -> handle_below k gr ->
  grads_below k (record grads t gr).
Proof.
  intros Hg Hgr i. unfold record. destruct (Nat.eqb i t); [exact Hgr | apply Hg].
Qed.

Lemma within_backprop (i : nat) :
  forall k pend grads,
    pending_below k pend -> grads_below k grads ->
    within k (backprop i pend grads) grads_below.
Proof.
  induction i as [| i IH]; intros k pend grads Hp Hg; cbn [backprop].
  - apply within_ret. intros k' Hk'. eapply grads_below_mono; eassumption.
  - eapply within_bind; [apply within_aggregated, Hp |].
    intros [gr |] k1 Hk1 Ha.
    + eapply within_bind; [apply within_get_op |]. intros o k2 Hk2 Ho.
      eapply within_bind.
      * apply within_op_grad; [exact Ho |].
        eapply handle_below_mono; [| exact Ha]. lia.
      * intros cs k3 Hk3 Hcs. apply IH.
        -- apply push_all_below; [| exact Hcs].
           eapply pending_below_mono; [| exact Hp]. lia.
        -- apply record_below.
           ++ eapply grads_below_mono; [| exact Hg]. lia.
           ++ eapply handle_below_mono; [| exact Ha]. lia.
    + apply IH.
      * eapply pending_below_mono; eassumption.
      * eapply grads_below_mono; eassumption.
Qed.

Lemma within_default_grad_ys (k : nat) (ys : list Tensor)
      (grad_ys : option (list Tensor)) :
  match grad_ys with
  | Some l => Forall (below k) l
  | None => True
  end ->
  within k (default_grad_ys ys grad_ys) (fun k' l => Forall (below k') l).
Proof.
  intros H. unfold default_grad_ys. destruct grad_ys as [l |].
  - destruct (Nat.eqb _ _); [| apply within_raise].
    apply within_ret. intros k' Hk'. eapply Forall_below_mono; eassumption.
  - apply (within_mapM _ (fun _ => True) below below_mono).
    + intros y k' Hk' _. apply within_like. constructor.
    + apply Forall_forall. auto.
Qed.

Lemma seeds_below (k : nat) (seeds : list Tensor) :
  Forall (below k) seeds ->
  forall ys, contribs_below k (combine ys (map Dense seeds)).
Proof.
  unfold contribs_below.
  induction 1 as [| s l Hs Hl IH]; intros [| y ys]; cbn; constructor; auto.
Qed.

Lemma within_gradients (k : nat) (ys xs : list Tensor)
      (grad_ys : option (list Tensor)) :
  match grad_ys with
  | Some l => Forall (below k) l
  | None => True
  end ->
  within k (gradients ys xs grad_ys)
    (fun k' r => Forall (opt_handle_below k') r).
Proof.
  intros H. unfold gradients, graph_size.
  eapply within_bind; [apply within_read |]. intros n k1 Hk1 _.
  eapply within_bind.
  { apply within_default_grad_ys. destruct grad_ys; [| exact I].
    eapply Forall_below_mono; eassumption. }
  intros seeds k2 Hk2 Hs. eapply within_bind.
  - apply within_backprop; [| intros t; exact I].
    apply push_all_below; [intros i; constructor |].
    now apply seeds_below.
  - intros grads k3 Hk3 Hg. apply within_ret. intros k4 Hk4.
    apply Forall_map, Forall_forall. intros x _.
    eapply opt_handle_below_mono; [exact Hk4 | apply Hg].
Qed.

End WithinGradients.

Section WithinCall.

Lemma within_dual_placeholders (k : nat) (ys : list Tensor) :
  Forall (below k) ys ->
  within k (dual_placeholders ys) (fun k' us => Forall (below k') us).
Proof.
  intros Hys. unfold dual_placeholders.
  apply (within_mapM _ (below k) below below_mono); [| exact Hys].
  intros y k' Hk' Hy.
  eapply within_bind.
  - apply within_zeros_like. eapply below_mono; eassumption.
  - intros z k1 Hk1 Hz. now apply within_add_float.
Qed.

Lemma within_to_dense (k : nat) (dydx : option TensorLike) :
  opt_handle_below k dydx -> within k (to_dense dydx) opt_below.
Proof.
  destruct dydx as [[t | s] |]; intros H; cbn [to_dense]; cbn in H.
  - apply within_ret. intros k' Hk'. cbn. lia.
  - eapply within_bind; [apply within_convert_to_tensor; exact H |].
    intros t k1 Hk1 Ht. apply within_ret. intros k' Hk'.
    unfold below in Ht. cbn. lia.
  - apply within_ret. intros; exact I.
Qed.

Lemma within_instrument (k : nat) (assert_unused : bool)
      (dydxs : list (option Tensor)) :
  Forall (opt_below k) dydxs ->
  within k (instrument assert_unused dydxs)
    (fun k' l => Forall (opt_below k') l).
Proof.
  intros H. unfold instrument. destruct assert_unused.
  - eapply within_bind; [apply within_control_dependencies, H |].
    intros ctrl k1 Hk1 Hctrl. unfold control_flow_ops.Assert.
    eapply within_bind.
    { apply within_add_node. split; [constructor | exact Hctrl]. }
    intros a k2 Hk2 Ha. eapply within_bind.
    { apply within_identity_n; [forall_cons; exact Ha |].
      eapply Forall_impl; [| exact H]. intros o. apply opt_below_mono. lia. }
    intros ids k3 Hk3 Hids. apply within_ret. intros k4 Hk4.
    apply Forall_map. eapply Forall_impl; [| exact Hids].
    intros t Ht. unfold below in Ht. cbn. lia.
  - apply within_ret. intros k' Hk'.
    eapply Forall_impl; [| exact H]. intros o. now apply opt_below_mono.
Qed.

Lemma within_or_zeros (k : nat) (p : Tensor * option Tensor) :
  below k (fst p) -> opt_below k (snd p) -> within k (or_zeros p) below.
Proof.
  unfold or_zeros. destruct (snd p) as [t |]; intros Hx H.
  - apply within_ret. intros k' Hk'. cbn in H. unfold below. lia.
  - now apply within_zeros_like.
Qed.

Lemma within_force_shape (k : nat) (p : Tensor * Tensor) :
  within k (force_shape p) (fun _ _ => True).
Proof.
  unfold force_shape, get_shape.
  eapply within_bind; [apply within_read |]. intros s k1 Hk1 _.
  apply within_set_shape.
Qed.

Lemma Forall_combine {A B} (P : A -> Prop) (Q : B -> Prop) (l1 : list A) :
  Forall P l1 ->
  forall l2, Forall Q l2 ->
    Forall (fun p => P (fst p) /\ Q (snd p)) (combine l1 l2).
Proof.
  induction 1 as [| a l1 Ha Hl IH]; intros l2 H2; cbn; [constructor |].
  destruct H2 as [| b l2 Hb H2]; constructor; auto.
Qed.

(** The first stage keeps the graph well formed and returns handles of
    existing nodes. *)
Lemma within_fwd_gradients_dydxs (k : nat) (ys xs : list Tensor)
      (assert_unused : bool) :
  Forall (below k) ys -> Forall (below k) xs ->
  within k (fwd_gradients_dydxs ys xs assert_unused)
    (fun k' p => Forall (below k') (fst p) /\ Forall (below k') (snd p)).
Proof.
  intros Hys Hxs. unfold fwd_gradients_dydxs.
  eapply within_bind; [apply within_dual_placeholders, Hys |].
  intros us k1 Hk1 Hus.
  eapply within_bind; [apply within_gradients; exact Hus |].
  intros d1 k2 Hk2 Hd1.
  eapply within_bind.
  { apply (within_mapM to_dense (opt_handle_below k2) opt_below
             opt_below_mono); [| exact Hd1].
    intros a k' Hk' Ha. apply within_to_dense.
    eapply opt_handle_below_mono; eassumption. }
  intros d2 k3 Hk3 Hd2.
  eapply within_bind; [apply within_instrument, Hd2 |].
  intros d3 k4 Hk4 Hd3.
  eapply within_bind.
  { apply (within_mapM or_zeros
             (fun p => below k4 (fst p) /\ opt_below k4 (snd p))
             below below_mono).
    - intros p k' Hk' [Hp1 Hp2]. apply within_or_zeros.
      + eapply below_mono; eassumption.
      + eapply opt_below_mono; eassumption.
    - apply Forall_combine; [| exact Hd3].
      eapply Forall_below_mono; [| exact Hxs]. lia. }
  intros d4 k5 Hk5 Hd4.
  eapply within_bind.
  { apply (within_mapM force_shape (fun _ => True) (fun _ _ => True)).
    - auto.
    - intros p k' _ _. apply within_force_shape.
    - apply Forall_forall. auto. }
  intros _ k6 Hk6 _. apply within_ret. intros k7 Hk7. cbn [fst snd]. split.
  - eapply Forall_below_mono; [| exact Hus]. lia.
  - eapply Forall_below_mono; [| exact Hd4]. lia.
Qed.

End WithinCall.

(** ** Simulation of two runs *)

Lemma extends_refl (G : Graph) : extends G G.
Proof. exists []. now rewrite app_nil_r. Qed.

Lemma extends_app (G g e : Graph) : extends G g -> extends G (g ++ e).
Proof. intros [e0 ->]. exists (e0 ++ e). now rewrite app_assoc. Qed.

Section SimLogic.

Variable G : Graph.

Lemma sim_ret (P : Graph -> Graph -> Prop) {X Y} (a : X) (b : Y)
      (Q : Graph -> Graph -> X -> Y -> Prop) :
  (forall gA gB, extends G gA -> extends G gB -> P gA gB -> Q gA gB a b) ->
  sim G P (ret a) (ret b) Q.
Proof.
  intros H gA gB HA HB HP. exists a, [], b, [].
  rewrite !app_nil_r. repeat split. now apply H.
Qed.

Lemma sim_bind (P : Graph -> Graph -> Prop) {X Y X' Y'}
      (mA : M X) (mB : M Y) (fA : X -> M X') (fB : Y -> M Y')
      (Q : Graph -> Graph -> X -> Y -> Prop)
      (R : Graph -> Graph -> X' -> Y' -> Prop) :
  sim G P mA mB Q ->
  (forall a b, sim G (fun gA gB => Q gA gB a b) (fA a) (fB b) R) ->
  sim G P (bind mA fA) (bind mB fB) R.
Proof.
  intros Hm Hf gA gB HA HB HP.
  destruct (Hm gA gB HA HB HP) as (a & eA & b & eB & EA & EB & HQ).
  destruct (Hf a b (gA ++ eA) (gB ++ eB)
              (extends_app _ _ _ HA) (extends_app _ _ _ HB) HQ)
    as (a' & eA' & b' & eB' & EA' & EB' & HR).
  exists a', (eA ++ eA'), b', (eB ++ eB').
  rewrite (bind_ok _ _ _ _ _ EA), (bind_ok _ _ _ _ _ EB), !app_assoc.
  auto.
Qed.

Lemma sim_conseq (P P' : Graph -> Graph -> Prop) {X Y}
      (mA : M X) (mB : M Y) (Q Q' : Graph -> Graph -> X -> Y -> Prop) :
  sim G P mA mB Q ->
  (forall gA gB, extends G gA -> extends G gB -> P' gA gB -> P gA gB) ->
  (forall gA gB a b, extends G gA -> extends G gB ->
                     Q gA gB a b -> Q' gA gB a b) ->
  sim G P' mA mB Q'.
Proof.
  intros Hm HP HQ gA gB HA HB HP'.
  destruct (Hm gA gB HA HB (HP _ _ HA HB HP'))
    as (a & eA & b & eB & EA & EB & H).
  exists a, eA, b, eB. repeat split; auto.
  apply HQ; auto using extends_app.
Qed.

(** A fact that survives the registration of nodes can be carried along. *)
Lemma sim_frame (P F : Graph -> Graph -> Prop) {X Y}
      (mA : M X) (mB : M Y) (Q : Graph -> Graph -> X -> Y -> Prop) :
  stable F -> sim G P mA mB Q ->
  sim G (fun gA gB => P gA gB /\ F gA gB) mA mB
    (fun gA gB a b => Q gA gB a b /\ F gA gB).
Proof.
  intros HF Hm gA gB HA HB [HP HFg].
  destruct (Hm gA gB HA HB HP) as (a & eA & b & eB & EA & EB & H).
  exists a, eA, b, eB. repeat split; auto.
Qed.

Lemma sim_read {A B} (P : Graph -> Graph -> Prop)
      (fA : Graph -> A) (fB : Graph -> B) :
  sim G P (fun g => (Ok (fA g), g)) (fun g => (Ok (fB g), g))
    (fun gA gB a b => P gA gB /\ a = fA gA /\ b = fB gB).
Proof.
  intros gA gB HA HB HP. exists (fA gA), [], (fB gB), [].
  rewrite !app_nil_r. auto.
Qed.

End SimLogic.

(** ** Values under scaling *)

Lemma scale_one (v : Value) : scale 1 v = v.
Proof.
  destruct v as [[| z] | e]; cbn; try reflexivity.
  now destruct z.
Qed.

Lemma scale_lift2_mul_l (c : Z) (v w : Value) :
  lift2 sc_mul (scale c v) w = scale c (lift2 sc_mul v w).
Proof.
  destruct v as [[| x] | e], w as [[| y] | e']; cbn; try reflexivity.
  do 2 f_equal. ring.
Qed.

Lemma scale_lift2_mul_r (c : Z) (v w : Value) :
  lift2 sc_mul w (scale c v) = scale c (lift2 sc_mul w v).
Proof.
  destruct v as [[| x] | e], w as [[| y] | e']; cbn; try reflexivity.
  do 2 f_equal. ring.
Qed.

Lemma scale_lift2_add (c : Z) (v w : Value) :
  lift2 sc_add (scale c v) (scale c w) = scale c (lift2 sc_add v w).
Proof.
  destruct v as [[| x] | e], w as [[| y] | e']; cbn; try reflexivity.
  do 2 f_equal. ring.
Qed.

Section Values.

Variable feed : Tensor -> Z.
Variable c : Z.
Variable G : Graph.

Lemma old_nodes_agree (gA gB : Graph) (t : Tensor) :
  extends G gA -> extends G gB -> t < List.length G ->
  eval gA feed t = eval gB feed t.
Proof.
  intros [eA ->] [eB ->] Ht. now rewrite !eval_app.
Qed.

Lemma rel_stable (a b : Tensor) :
  stable (fun gA gB => rel feed c gA gB a b).
Proof.
  intros gA gB eA eB (Ha & Hb & H). unfold rel.
  rewrite !length_app, !eval_app by assumption.
  repeat split; [lia | lia | exact H].
Qed.

Lemma rel_like_stable (x y : TensorLike) :
  stable (fun gA gB => rel_like feed c gA gB x y).
Proof.
  destruct x, y; intros gA gB eA eB H; cbn in *; try contradiction;
    now apply rel_stable.
Qed.

Lemma opt_rel_like_stable (x y : option TensorLike) :
  stable (fun gA gB => opt_rel_like feed c gA gB x y).
Proof.
  destruct x, y; intros gA gB eA eB H; cbn in *; try contradiction; auto.
  now apply rel_like_stable.
Qed.

Lemma Forall2_stable {A B} (R : Graph -> Graph -> A -> B -> Prop)
      (l : list A) (l' : list B) :
  (forall a b, stable (fun gA gB => R gA gB a b)) ->
  stable (fun gA gB => Forall2 (R gA gB) l l').
Proof.
  intros HR gA gB eA eB H.
  eapply Forall2_impl; [| exact H]. intros a b. apply HR.
Qed.

Lemma pending_rel_stable (pA pB : Pending) :
  stable (pending_rel feed c pA pB).
Proof.
  intros gA gB eA eB H i.
  apply (Forall2_stable (rel_like feed c)); [apply rel_like_stable | apply H].
Qed.

Lemma grads_rel_stable (dA dB : Grads) : stable (grads_rel feed c dA dB).
Proof.
  intros gA gB eA eB H t. apply opt_rel_like_stable, H.
Qed.

Lemma stable_and (P Q : Graph -> Graph -> Prop) :
  stable P -> stable Q -> stable (fun gA gB => P gA gB /\ Q gA gB).
Proof. intros HP HQ gA gB eA eB [H1 H2]. split; auto. Qed.

Lemma stable_const (P : Prop) : stable (fun _ _ => P).
Proof. intros gA gB eA eB H. exact H. Qed.

(** Two nodes registered side by side, the first computing [c] times the
    second. *)
Lemma sim_add_node (P : Graph -> Graph -> Prop) (nA nB : Node) :
  stable P ->
  (forall gA gB, extends G gA -> extends G gB -> P gA gB ->
     run_node feed (run feed gA) nA
     = scale c (run_node feed (run feed gB) nB)) ->
  sim G P (add_node nA) (add_node nB)
    (fun gA gB a b => P gA gB /\ rel feed c gA gB a b).
Proof.
  intros HP Hrun gA gB HA HB Hg.
  exists (List.length gA), [nA], (List.length gB), [nB].
  split; [reflexivity |]. split; [reflexivity |].
  split; [now apply HP |]. unfold rel.
  rewrite !length_app, !eval_snoc. cbn.
  repeat split; [lia | lia |]. now apply Hrun.
Qed.

Lemma sim_like (P : Graph -> Graph -> Prop) (tA tB : Tensor) (oA oB : Op) :
  stable P ->
  (forall gA gB, extends G gA -> extends G gB -> P gA gB ->
     run_op feed (List.length gA) (run feed gA) oA
     = scale c (run_op feed (List.length gB) (run feed gB) oB)) ->
  sim G P (like tA oA) (like tB oB)
    (fun gA gB a b => P gA gB /\ rel feed c gA gB a b).
Proof.
  intros HP Hrun gA gB HA HB Hg. unfold like. unfold_monad.
  eapply (sim_add_node P _ _ HP); eauto.
  intros gA' gB' HA' HB' Hg'. unfold run_node. cbn.
  rewrite !run_length. now apply Hrun.
Qed.

Lemma sim_as_tensor (P : Graph -> Graph -> Prop) (x y : TensorLike) :
  stable P ->
  sim G (fun gA gB => P gA gB /\ rel_like feed c gA gB x y)
    (as_tensor x) (as_tensor y)
    (fun gA gB a b => P gA gB /\ rel feed c gA gB a b).
Proof.
  intros HP. destruct x as [a | s], y as [b | s'];
    try solve [intros gA gB _ _ [_ []]]; cbn [as_tensor].
  - apply sim_ret. auto.
  - intros gA gB HA HB [Hg Hr]. unfold ops.convert_to_tensor, bind, get_dtype.
    destruct (sim_add_node
                (fun gA gB => P gA gB
                              /\ rel feed c gA gB (values s) (values s'))
                (mkNode (UnsortedSegmentSum (values s)) [] (dense_shape s)
                   (dtype_of gA (values s)))
                (mkNode (UnsortedSegmentSum (values s')) [] (dense_shape s')
                   (dtype_of gB (values s')))
                (stable_and _ _ HP (rel_stable _ _))) with (gA := gA) (gB := gB)
      as (a & eA & b & eB & EA & EB & [[HP1 _] Hrel]); auto.
    + intros gA' gB' _ _ [_ (_ & _ & H)]. unfold run_node. cbn. exact H.
    + exists a, eA, b, eB. auto.
Qed.

End Values.

Section SimGradients.

Variable feed : Tensor -> Z.
Variable c : Z.
Variable G : Graph.

Lemma sim_pure (P : Graph -> Graph -> Prop) (K : Prop) {X Y}
      (mA : M X) (mB : M Y) (Q : Graph -> Graph -> X -> Y -> Prop) :
  (forall gA gB, extends G gA -> extends G gB -> P gA gB -> K) ->
  (K -> sim G P mA mB Q) ->
  sim G P mA mB Q.
Proof.
  intros HK Hm gA gB HA HB HP. exact (Hm (HK _ _ HA HB HP) gA gB HA HB HP).
Qed.

Lemma sim_mapM_as_tensor (P : Graph -> Graph -> Prop) (lA : list TensorLike) :
  stable P ->
  forall lB,
    sim G (fun gA gB => P gA gB /\ Forall2 (rel_like feed c gA gB) lA lB)
      (mapM as_tensor lA) (mapM as_tensor lB)
      (fun gA gB tsA tsB => P gA gB /\ Forall2 (rel feed c gA gB) tsA tsB).
Proof.
  intros HP. revert P HP.
  induction lA as [| x lA IH]; intros P HP [| y lB]; cbn [mapM];
    try solve [intros gA gB _ _ [_ H]; inversion H].
  - apply sim_ret. intros gA gB _ _ [H _]. split; [exact H | constructor].
  - eapply sim_bind.
    + eapply sim_conseq.
      * apply (sim_as_tensor feed c G
                 (fun gA gB => P gA gB
                               /\ Forall2 (rel_like feed c gA gB) lA lB) x y).
        apply stable_and; [exact HP |].
        apply (Forall2_stable (rel_like feed c)), rel_like_stable.
      * intros gA gB _ _ [H1 H2]. inversion H2; subst. auto.
      * intros gA gB a b _ _ H. exact H.
    + intros a b. eapply sim_bind.
      * eapply sim_conseq.
        -- apply (IH (fun gA gB => P gA gB /\ rel feed c gA gB a b)).
           apply stable_and; [exact HP | apply rel_stable].
        -- intros gA gB _ _ [[H1 H2] H3]. auto.
        -- intros gA gB tsA tsB _ _ H. exact H.
      * intros tsA tsB. apply sim_ret.
        intros gA gB _ _ [[H1 H2] H3]. split; [exact H1 |].
        now constructor.
Qed.

Lemma sum_values_rel (gA gB : Graph) (tsA tsB : list Tensor) :
  Forall2 (rel feed c gA gB) tsA tsB ->
  sum_values (run feed gA) tsA = scale c (sum_values (run feed gB) tsB).
Proof.
  induction 1 as [| a b tsA tsB (_ & _ & Hab) _ IH]; cbn.
  - now rewrite Z.mul_0_r.
  - unfold eval in Hab. now rewrite Hab, IH, scale_lift2_add.
Qed.

Lemma sim_aggregated (P : Graph -> Graph -> Prop) (self : Tensor)
      (lA lB : list TensorLike) :
  stable P ->
  sim G (fun gA gB => P gA gB /\ Forall2 (rel_like feed c gA gB) lA lB)
    (aggregated self lA) (aggregated self lB)
    (fun gA gB a b => P gA gB /\ opt_rel_like feed c gA gB a b).
Proof.
  intros HP. unfold aggregated.
  destruct lA as [| x [| x' lA]], lB as [| y [| y' lB]];
    try solve [intros gA gB _ _ [_ H]; inversion H;
               match goal with H' : Forall2 _ _ _ |- _ => inversion H' end].
  - apply sim_ret. intros gA gB _ _ [H _]. split; [exact H | exact I].
  - apply sim_ret. intros gA gB _ _ [H H']. split; [exact H |].
    now inversion H'.
  - eapply sim_bind; [apply sim_mapM_as_tensor, HP |].
    intros tsA tsB. eapply sim_bind.
    + apply (sim_like feed c G
               (fun gA gB => P gA gB
                             /\ Forall2 (rel feed c gA gB) tsA tsB)).
      * apply stable_and; [exact HP |].
        apply (Forall2_stable (rel feed c)), rel_stable.
      * intros gA gB _ _ [_ H]. cbn [run_op]. now apply sum_values_rel.
    + intros a b. apply sim_ret. intros gA gB _ _ [[H _] H']. auto.
Qed.

End SimGradients.

Section SimBackprop.

Variable feed : Tensor -> Z.
Variable c : Z.
Variable G : Graph.
Hypothesis closed_G : closed G.

Lemma sim_false (P : Graph -> Graph -> Prop) {X Y}
      (mA : M X) (mB : M Y) (Q : Graph -> Graph -> X -> Y -> Prop) :
  (forall gA gB, P gA gB -> False) -> sim G P mA mB Q.
Proof. intros H gA gB _ _ HP. destruct (H _ _ HP). Qed.

Lemma fetch_eval (g : Graph) (t : Tensor) :
  fetch (run feed g) t = eval g feed t.
Proof. reflexivity. Qed.

Lemma sim_op_grad (P : Graph -> Graph -> Prop) (o : Op)
      (grA grB : TensorLike) :
  stable P ->
  Forall (below (List.length G)) (op_inputs o) ->
  sim G (fun gA gB => P gA gB /\ rel_like feed c gA gB grA grB)
    (op_grad o grA) (op_grad o grB)
    (fun gA gB csA csB =>
       P gA gB /\ Forall2 (contrib_rel feed c gA gB) csA csB).
Proof.
  intros HP Ho.
  destruct o; cbn [op_grad]; cbn [op_inputs] in Ho;
    try solve [apply sim_ret; intros gA gB _ _ [H _];
               split; [exact H | constructor]].
  - (* Add *)
    eapply sim_bind; [apply sim_as_tensor, HP |]. intros dA dB.
    apply sim_ret. intros gA gB _ _ [H Hd]. split; [exact H |].
    repeat (constructor; [split; [reflexivity | exact Hd] |]). constructor.
  - (* AddN *)
    eapply sim_bind; [apply sim_as_tensor, HP |]. intros dA dB.
    apply sim_ret. intros gA gB _ _ [H Hd]. split; [exact H |].
    clear Ho. induction l as [| a l IHl]; cbn; constructor;
      [split; [reflexivity | exact Hd] | exact IHl].
  - (* Mul *)
    inversion Ho as [| ? ? Ha Ho']; subst.
    inversion Ho' as [| ? ? Hb _]; subst. unfold below in Ha, Hb.
    eapply sim_bind; [apply sim_as_tensor, HP |]. intros dA dB.
    eapply sim_bind.
    { apply (sim_like feed c G
               (fun gA gB => P gA gB /\ rel feed c gA gB dA dB)).
      - apply stable_and; [exact HP | apply rel_stable].
      - intros gA gB HA HB [_ (_ & _ & Hd)]. cbn [run_op].
        rewrite !fetch_eval, Hd, (old_nodes_agree feed G gA gB b HA HB Hb).
        apply scale_lift2_mul_l. }
    intros gaA gaB. eapply sim_bind.
    { apply (sim_like feed c G
               (fun gA gB => (P gA gB /\ rel feed c gA gB dA dB)
                             /\ rel feed c gA gB gaA gaB)).
      - apply stable_and; [apply stable_and; [exact HP |] |];
          apply rel_stable.
      - intros gA gB HA HB [[_ (_ & _ & Hd)] _]. cbn [run_op].
        rewrite !fetch_eval, Hd, (old_nodes_agree feed G gA gB a HA HB Ha).
        apply scale_lift2_mul_r. }
    intros gbA gbB. apply sim_ret.
    intros gA gB _ _ [[[H _] Hga] Hgb]. split; [exact H |].
    constructor; [split; [reflexivity | exact Hga] |].
    constructor; [split; [reflexivity | exact Hgb] | constructor].
  - (* Identity *)
    apply sim_ret. intros gA gB _ _ [H Hgr]. split; [exact H |].
    constructor; [split; [reflexivity | exact Hgr] | constructor].
  - (* Gather *)
    eapply sim_bind; [apply sim_as_tensor, HP |]. intros dA dB.
    unfold get_shape. eapply sim_bind; [apply sim_read |]. intros sA sB.
    apply sim_ret. intros gA gB _ _ [[H Hd] _]. split; [exact H |].
    constructor; [split; [reflexivity | exact Hd] | constructor].
  - (* UnsortedSegmentSum *)
    eapply sim_bind; [apply sim_as_tensor, HP |]. intros dA dB.
    eapply sim_bind.
    { apply (sim_like feed c G
               (fun gA gB => P gA gB /\ rel feed c gA gB dA dB)).
      - apply stable_and; [exact HP | apply rel_stable].
      - intros gA gB _ _ [_ (_ & _ & Hd)]. cbn [run_op].
        now rewrite !fetch_eval. }
    intros eA eB. apply sim_ret. intros gA gB _ _ [[H _] He].
    split; [exact H |].
    constructor; [split; [reflexivity | exact He] | constructor].
Qed.

End SimBackprop.

Section SimSweep.

Variable feed : Tensor -> Z.
Variable c : Z.
Variable G : Graph.
Hypothesis closed_G : closed G.

Lemma push_all_rel (gA gB : Graph) (csA csB : list (Tensor * TensorLike)) :
  Forall2 (contrib_rel feed c gA gB) csA csB ->
  forall pA pB,
    pending_rel feed c pA pB gA gB ->
    pending_rel feed c (push_all pA csA) (push_all pB csB) gA gB.
Proof.
  unfold push_all.
  induction 1 as [| cA cB csA csB [Hf Hr] _ IH]; intros pA pB Hp; cbn;
    [exact Hp |].
  apply IH. intros i. unfold push. rewrite <- Hf.
  destruct (Nat.eqb i (fst cA)); [| apply Hp].
  apply Forall2_app; [apply Hp | now constructor].
Qed.

Lemma record_rel (gA gB : Graph) (dA dB : Grads) (t : Tensor)
      (grA grB : TensorLike) :
  grads_rel feed c dA dB gA gB -> rel_like feed c gA gB grA grB ->
  grads_rel feed c (record dA t grA) (record dB t grB) gA gB.
Proof.
  intros Hd Hg k. unfold record. destruct (Nat.eqb k t); [exact Hg | apply Hd].
Qed.

Lemma old_op (g : Graph) (i : nat) :
  extends G g -> i < List.length G ->
  exists o,
    match nth_error g i with Some n => op n | None => Placeholder end = o
    /\ Forall (below (List.length G)) (op_inputs o).
Proof.
  intros [e ->] Hi. rewrite nth_error_app1 by exact Hi.
  destruct (nth_error G i) as [n |] eqn:Hn.
  - exists (op n). split; [reflexivity |].
    apply (closed_lookup G i n closed_G Hn).
  - exists Placeholder. split; [reflexivity | constructor].
Qed.

Lemma sim_backprop (k : nat) :
  k <= List.length G ->
  forall pA pB dA dB,
    sim G (fun gA gB => pending_rel feed c pA pB gA gB
                        /\ grads_rel feed c dA dB gA gB)
      (backprop k pA dA) (backprop k pB dB)
      (fun gA gB rA rB => grads_rel feed c rA rB gA gB).
Proof.
  induction k as [| i IH]; intros Hk pA pB dA dB; cbn [backprop].
  - apply sim_ret. intros gA gB _ _ [_ H]. exact H.
  - assert (HPQ : stable (fun gA gB => pending_rel feed c pA pB gA gB
                                       /\ grads_rel feed c dA dB gA gB))
      by (apply stable_and;
          [apply pending_rel_stable | apply grads_rel_stable]).
    eapply sim_bind.
    { eapply sim_conseq; [apply (sim_aggregated feed c G _ i (pA i) (pB i) HPQ)
                         | |].
      - intros gA gB _ _ [Hp Hd]. split; [split; assumption | apply Hp].
      - intros gA gB a b _ _ H. exact H. }
    intros [grA |] [grB |];
      try solve [apply sim_false; intros gA gB [_ []]].
    + unfold get_op. eapply sim_bind; [apply sim_read |]. intros oA oB.
      apply (sim_pure G _
               (exists o, oA = o /\ oB = o
                          /\ Forall (below (List.length G)) (op_inputs o))).
      { intros gA gB HA HB (_ & -> & ->).
        destruct (old_op gA i HA ltac:(lia)) as (o & Ho & Hin).
        destruct (old_op gB i HB ltac:(lia)) as (o' & Ho' & _).
        exists o. split; [exact Ho |]. split; [| exact Hin].
        rewrite Ho'. destruct HA as [eA ->], HB as [eB ->].
        rewrite nth_error_app1 in Ho, Ho' by lia. congruence. }
      intros (o & -> & -> & Hin).
      eapply sim_bind.
      { eapply sim_conseq.
        - apply (sim_op_grad feed c G
                   (fun gA gB => (pending_rel feed c pA pB gA gB
                                   /\ grads_rel feed c dA dB gA gB)
                                 /\ rel_like feed c gA gB grA grB)
                   o grA grB).
          + apply stable_and; [exact HPQ | apply rel_like_stable].
          + exact Hin.
        - intros gA gB _ _ [[H Hr] _]. cbn in Hr. auto.
        - intros gA gB a b _ _ H. exact H. }
      intros csA csB. eapply sim_conseq; [apply IH; lia | |].
      * intros gA gB _ _ [[[Hp Hd] Hr] Hcs]. split.
        -- now apply push_all_rel.
        -- now apply record_rel.
      * intros gA gB a b _ _ H. exact H.
    + eapply sim_conseq; [apply IH; lia | |].
      * intros gA gB _ _ [H _]. exact H.
      * intros gA gB a b _ _ H. exact H.
Qed.

End SimSweep.

Section SimCall.

Variable feed : Tensor -> Z.
Variable c : Z.
Variable G : Graph.
Hypothesis closed_G : closed G.

Lemma seeds_rel (gA gB : Graph) (lA lB : list Tensor) :
  Forall2 (rel feed c gA gB) lA lB ->
  forall outs,
    Forall2 (contrib_rel feed c gA gB)
      (combine outs (map Dense lA)) (combine outs (map Dense lB)).
Proof.
  induction 1 as [| a b lA lB Hab _ IH]; intros [| y outs]; cbn;
    constructor; [split; [reflexivity | exact Hab] | apply IH].
Qed.

(** Two calls of [gradients] on the graph [G] whose seeds are related
    return related gradients. *)
Lemma sim_gradients (outs tgts : list Tensor)
      (sA sB : option (list Tensor)) :
  sim G (fun gA gB => gA = G /\ gB = G)
    (default_grad_ys outs sA) (default_grad_ys outs sB)
    (fun gA gB lA lB => Forall2 (rel feed c gA gB) lA lB) ->
  sim G (fun gA gB => gA = G /\ gB = G)
    (gradients outs tgts sA) (gradients outs tgts sB)
    (fun gA gB rA rB => Forall2 (opt_rel_like feed c gA gB) rA rB).
Proof.
  intros Hseeds. unfold gradients, graph_size.
  eapply sim_bind; [apply sim_read |]. intros nA nB.
  apply (sim_pure G _ (nA = List.length G /\ nB = List.length G)).
  { intros gA gB _ _ ([-> ->] & -> & ->). auto. }
  intros [-> ->].
  eapply sim_bind.
  { eapply sim_conseq; [exact Hseeds | |].
    - intros gA gB _ _ [H _]. exact H.
    - intros gA gB a b _ _ H. exact H. }
  intros lA lB. eapply sim_bind.
  { eapply sim_conseq;
      [apply (sim_backprop feed c G closed_G (List.length G)
                (Nat.le_refl _)) | |].
    - intros gA gB _ _ H. split.
      + apply push_all_rel; [apply seeds_rel, H |].
        intros i. constructor.
      + intros t. exact I.
    - intros gA gB a b _ _ H. exact H. }
  intros dA dB. apply sim_ret. intros gA gB _ _ H.
  induction tgts as [| t tgts IHt]; cbn; constructor; [apply H | exact IHt].
Qed.

End SimCall.

(** The default seeds, constants one, against given seeds that evaluate to
    one. *)
Lemma default_seeds_are_ones (feed : Tensor -> Z) (gB : Graph)
      (outs : list Tensor) :
  forall (ones : list Tensor) (gA : Graph),
    List.length ones = List.length outs ->
    Forall (fun s => s < List.length gB /\ eval gB feed s = Ok (Fin 1%Z))
      ones ->
    exists lA eA,
      mapM (fun y => like y (Const (Fin 1%Z))) outs gA = (Ok lA, gA ++ eA)
      /\ Forall2 (rel feed 1 (gA ++ eA) gB) lA ones.
Proof.
  induction outs as [| y outs IH]; intros [| s ones] gA Hlen Hones;
    try discriminate.
  - exists [], []. rewrite app_nil_r. split; [reflexivity | constructor].
  - inversion Hones as [| ? ? [Hs Hv] Hones']; subst.
    set (nd := mkNode (Const (Fin 1%Z)) [] (shape_of gA y) (dtype_of gA y)).
    destruct (IH ones (gA ++ [nd]) ltac:(cbn in Hlen; lia) Hones')
      as (lA & eA & Hl & Hrel).
    exists (List.length gA :: lA), (nd :: eA).
    replace (gA ++ nd :: eA) with ((gA ++ [nd]) ++ eA)
      by now rewrite <- app_assoc.
    split.
    + cbn [mapM].
      rewrite (bind_ok _ _ gA (gA ++ [nd]) (List.length gA) eq_refl).
      now rewrite (bind_ok _ _ _ _ _ Hl).
    + constructor; [| exact Hrel].
      unfold rel. rewrite !length_app. cbn [List.length].
      split; [lia |]. split; [exact Hs |].
      rewrite Hv, eval_app by (rewrite length_app; cbn; lia).
      now rewrite eval_snoc.
Qed.

(** ** Lengths *)

Lemma bind_inv {A B} (m : M A) (f : A -> M B) (g g' : Graph) (b : B) :
  bind m f g = (Ok b, g') ->
  exists a g1, m g = (Ok a, g1) /\ f a g1 = (Ok b, g').
Proof.
  unfold bind. destruct (m g) as [[a | e] g1]; [eauto | discriminate].
Qed.

Lemma mapM_length {A B} (f : A -> M B) (l : list A) :
  forall g bs g',
    mapM f l g = (Ok bs, g') -> List.length bs = List.length l.
Proof.
  induction l as [| a l IH]; intros g bs g' H; cbn [mapM] in H.
  - injection H as <- _. reflexivity.
  - apply bind_inv in H. destruct H as (b & g1 & _ & H).
    apply bind_inv in H. destruct H as (bs' & g2 & Hl & H).
    injection H as <- _. cbn. f_equal. eapply IH, Hl.
Qed.

Lemma gradients_length (ys xs : list Tensor) (s : option (list Tensor))
      (g g' : Graph) (r : list (option TensorLike)) :
  gradients ys xs s g = (Ok r, g') -> List.length r = List.length xs.
Proof.
  unfold gradients. intros H.
  apply bind_inv in H. destruct H as (n & g1 & _ & H).
  apply bind_inv in H. destruct H as (seeds & g2 & _ & H).
  apply bind_inv in H. destruct H as (grads & g3 & _ & H).
  injection H as <- _. apply length_map.
Qed.

Lemma identity_nodes_length (ctrl : list Tensor) (l : list (option Tensor)) :
  forall g r g',
    array_ops.identity_nodes ctrl l g = (Ok r, g') ->
    List.length r = List.length l.
Proof.
  induction l as [| [t |] l IH]; intros g r g' H;
    cbn [array_ops.identity_nodes] in H.
  - injection H as <- _. reflexivity.
  - apply bind_inv in H. destruct H as (d & g1 & _ & H).
    apply bind_inv in H. destruct H as (s & g2 & _ & H).
    apply bind_inv in H. destruct H as (i & g3 & _ & H).
    apply bind_inv in H. destruct H as (rest & g4 & Hl & H).
    injection H as <- _. cbn. f_equal. eapply IH, Hl.
  - discriminate.
Qed.

Lemma identity_n_length (ctrl : list Tensor) (l : list (option Tensor)) :
  forall g r g',
    array_ops.identity_n ctrl l g = (Ok r, g') ->
    List.length r = List.length l.
Proof.
  intros g r g' H. unfold array_ops.identity_n in H.
  destruct l; [discriminate | eapply identity_nodes_length, H].
Qed.

Lemma instrument_length (assert_unused : bool) (l : list (option Tensor))
      (g g' : Graph) (r : list (option Tensor)) :
  instrument assert_unused l g = (Ok r, g') ->
  List.length r = List.length l.
Proof.
  unfold instrument. destruct assert_unused; intros H.
  - apply bind_inv in H. destruct H as (ctrl & g1 & _ & H).
    apply bind_inv in H. destruct H as (a & g2 & _ & H).
    apply bind_inv in H. destruct H as (ids & g3 & Hl & H).
    injection H as <- _. rewrite length_map. eapply identity_n_length, Hl.
  - injection H as <- _. reflexivity.
Qed.

(** The first stage returns one dual placeholder per [y] and one derivative
    per [x]. *)
Lemma fwd_gradients_dydxs_length (ys xs : list Tensor) (assert_unused : bool)
      (g g' : Graph) (us dydxs : list Tensor) :
  fwd_gradients_dydxs ys xs assert_unused g = (Ok (us, dydxs), g') ->
  List.length us = List.length ys /\ List.length dydxs = List.length xs.
Proof.
  unfold fwd_gradients_dydxs, dual_placeholders. intros H.
  apply bind_inv in H. destruct H as (us0 & g1 & Hus & H).
  apply bind_inv in H. destruct H as (d1 & g2 & Hd1 & H).
  apply bind_inv in H. destruct H as (d2 & g3 & Hd2 & H).
  apply bind_inv in H. destruct H as (d3 & g4 & Hd3 & H).
  apply bind_inv in H. destruct H as (d4 & g5 & Hd4 & H).
  apply bind_inv in H. destruct H as (u & g6 & _ & H).
  injection H as <- <- _.
  apply mapM_length in Hus, Hd2, Hd4. apply gradients_length in Hd1.
  apply instrument_length in Hd3. rewrite length_combine in Hd4.
  split; [exact Hus | lia].
Qed.

(** The result has one entry per [y]. *)
Lemma fwd_gradients_length (ys xs : list Tensor)
      (grad_xs : option (list Tensor)) (assert_unused : bool)
      (g g' : Graph) (r : list (option TensorLike)) :
  fwd_gradients ys xs grad_xs assert_unused g = (Ok r, g') ->
  List.length r = List.length ys.
Proof.
  unfold fwd_gradients. intros H.
  apply bind_inv in H. destruct H as ([us dydxs] & g1 & Hp & H).
  apply bind_inv in H. destruct H as (r' & g2 & Hr & H).
  injection H as <- _. apply gradients_length in Hr.
  apply fwd_gradients_dydxs_length in Hp. cbn in Hr. lia.
Qed.

(** ** The seed of the second pass *)

Lemma first_stage_facts (g : Graph) (ys xs : list Tensor)
      (assert_unused : bool) :
  closed g ->
  Forall (below (List.length g)) ys -> Forall (below (List.length g)) xs ->
  exists r g1,
    fwd_gradients_dydxs ys xs assert_unused g = (r, g1)
    /\ extends g g1 /\ closed g1
    /\ match r with
       | Ok p => List.length (snd p) = List.length xs
       | Err _ => True
       end.
Proof.
  intros Hg Hys Hxs.
  destruct (within_fwd_gradients_dydxs (List.length g) ys xs assert_unused
              Hys Hxs g Hg (Nat.le_refl _)) as (r & g1 & Hr & Hc & _ & _).
  destruct (keeps_fwd_gradients_dydxs g ys xs assert_unused [])
    as (r' & e & Hr' & _).
  rewrite app_nil_r in Hr'. rewrite Hr in Hr'. injection Hr' as <- ->.
  exists r, (g ++ e). split; [exact Hr |].
  split; [now exists e |]. split; [exact Hc |].
  destruct r as [[us dydxs] |]; [| exact I].
  now apply fwd_gradients_dydxs_length in Hr.
Qed.

Lemma opt_rel_like_scaled (feed : Tensor -> Z) (c : Z) (gA gB : Graph)
      (rA rB : list (option TensorLike)) :
  Forall2 (opt_rel_like feed c gA gB) rA rB ->
  Forall2 (scaled_entry feed c gA gB) rA rB.
Proof.
  apply Forall2_impl. intros [[a | s] |] [[b | s'] |]; cbn; try tauto;
    now intros (_ & _ & H).
Qed.

Lemma scaled_entry_one (feed : Tensor -> Z) (gA gB : Graph)
      (rA rB : list (option TensorLike)) :
  Forall2 (scaled_entry feed 1 gA gB) rA rB ->
  Forall2 (same_entry feed gA gB) rA rB.
Proof.
  apply Forall2_impl. intros [[a | s] |] [[b | s'] |]; cbn; try tauto;
    now rewrite scale_one.
Qed.

(** Two calls that differ in the seed only: when the seeds the second pass
    starts from are related, so are the results. *)
Lemma fwd_gradients_two_seeds (feed : Tensor -> Z) (c : Z) (g : Graph)
      (ys xs : list Tensor) (assert_unused : bool)
      (sA sB : option (list Tensor)) :
  closed g ->
  Forall (below (List.length g)) ys -> Forall (below (List.length g)) xs ->
  (forall g1 dydxs,
      extends g g1 -> closed g1 -> List.length dydxs = List.length xs ->
      sim g1 (fun gA gB => gA = g1 /\ gB = g1)
        (default_grad_ys dydxs sA) (default_grad_ys dydxs sB)
        (fun gA gB lA lB => Forall2 (rel feed c gA gB) lA lB)) ->
  match fwd_gradients ys xs sA assert_unused g,
        fwd_gradients ys xs sB assert_unused g with
  | (Ok rA, gA), (Ok rB, gB) => Forall2 (scaled_entry feed c gA gB) rA rB
  | (Err eA, _), (Err eB, _) => eA = eB
  | _, _ => False
  end.
Proof.
  intros Hg Hys Hxs Hseeds.
  destruct (first_stage_facts g ys xs assert_unused Hg Hys Hxs)
    as (r & g1 & Hr & Hext & Hc & Hlen).
  unfold fwd_gradients. destruct r as [[us dydxs] | e].
  - rewrite !(bind_ok _ _ _ _ _ Hr), !bind_ret_r. cbn [fst snd] in *.
    destruct (sim_gradients feed c g1 Hc dydxs us sA sB
                (Hseeds g1 dydxs Hext Hc Hlen) g1 g1
                (extends_refl _) (extends_refl _) (conj eq_refl eq_refl))
      as (rA & eA & rB & eB & -> & -> & H).
    now apply opt_rel_like_scaled.
  - rewrite !(bind_err _ _ _ _ _ Hr). reflexivity.
Qed.

Lemma rel_from_caller (feed : Tensor -> Z) (c : Z) (g g1 : Graph)
      (lA lB : list Tensor) :
  extends g g1 ->
  Forall (below (List.length g)) lA -> Forall (below (List.length g)) lB ->
  Forall2 (fun a b => eval g feed a = scale c (eval g feed b)) lA lB ->
  Forall2 (rel feed c g1 g1) lA lB.
Proof.
  intros [e ->] HA HB H. revert HA HB.
  induction H as [| a b lA lB Hab _ IH]; intros HA HB; constructor.
  - inversion HA; inversion HB; subst. unfold below in *. unfold rel.
    rewrite length_app, !eval_app by assumption.
    repeat split; [lia | lia | exact Hab].
  - inversion HA; inversion HB; subst. now apply IH.
Qed.

(** C4: scaling the seed by a number [c] scales the result by [c].  For a
    well-formed graph and handles of its nodes, when every entry of [scaled]
    evaluates to [c] times the corresponding entry of [grad_xs], the two
    calls raise the same error or return results whose entries correspond:
    both [None], or of the same representation with the entry for [scaled]
    evaluating to [c] times the entry for [grad_xs]. *)
Theorem fwd_gradients_linear_in_seed
        (feed : Tensor -> Z) (c : Z) (g : Graph)
        (ys xs grad_xs scaled : list Tensor) (assert_unused : bool) :
  closed g ->
  Forall (below (List.length g)) ys -> Forall (below (List.length g)) xs ->
  Forall (below (List.length g)) grad_xs ->
  Forall (below (List.length g)) scaled ->
  List.length grad_xs = List.length xs ->
  Forall2 (fun s' s => eval g feed s' = scale c (eval g feed s))
    scaled grad_xs ->
  match fwd_gradients ys xs (Some scaled) assert_unused g,
        fwd_gradients ys xs (Some grad_xs) assert_unused g with
  | (Ok rA, gA), (Ok rB, gB) => Forall2 (scaled_entry feed c gA gB) rA rB
  | (Err eA, _), (Err eB, _) => eA = eB
  | _, _ => False
  end.
Proof.
  intros Hg Hys Hxs Hgs Hsc Hlen Hrel.
  apply fwd_gradients_two_seeds; try assumption.
  intros g1 dydxs Hext Hc Hd. unfold default_grad_ys.
  rewrite (Forall2_length Hrel), Hlen, Hd, Nat.eqb_refl.
  apply sim_ret. intros gA gB _ _ [-> ->].
  now apply (rel_from_caller feed c g).
Qed.

Lemma closed_scaled_product_graph : closed scaled_product_graph.
Proof.
  unfold closed. cbn. forall_cons; split; forall_cons; unfold below; lia.
Qed.

Lemma fwd_gradients_linear_in_seed_witness :
  match fwd_gradients [2] [0; 1] (Some [5; 4]) true scaled_product_graph,
        fwd_gradients [2] [0; 1] (Some [3; 4]) true scaled_product_graph with
  | (Ok rA, gA), (Ok rB, gB) =>
      Forall2 (scaled_entry sample_feed 2 gA gB) rA rB
  | (Err eA, _), (Err eB, _) => eA = eB
  | _, _ => False
  end.
Proof.
  apply (fwd_gradients_linear_in_seed sample_feed 2 scaled_product_graph
           [2] [0; 1] [3; 4] [5; 4] true).
  - exact closed_scaled_product_graph.
  - cbn. forall_cons; unfold below; lia.
  - cbn. forall_cons; unfold below; lia.
  - cbn. forall_cons; unfold below; lia.
  - cbn. forall_cons; unfold below; lia.
  - reflexivity.
  - repeat (apply Forall2_cons || apply Forall2_nil); reflexivity.
Defined.

(** C3: a call without [grad_xs] gives the result of a call whose [grad_xs]
    are all-ones tensors, one per [x].  For a well-formed graph and handles
    of its nodes, when every entry of [ones] evaluates to one, the two calls
    raise the same error or return results whose entries correspond: both
    [None], or of the same representation and evaluating to the same. *)
Theorem fwd_gradients_default_seed
        (feed : Tensor -> Z) (g : Graph)
        (ys xs ones : list Tensor) (assert_unused : bool) :
  closed g ->
  Forall (below (List.length g)) ys -> Forall (below (List.length g)) xs ->
  List.length ones = List.length xs ->
  Forall (fun s => below (List.length g) s
                   /\ eval g feed s = Ok (Fin 1%Z)) ones ->
  match fwd_gradients ys xs None assert_unused g,
        fwd_gradients ys xs (Some ones) assert_unused g with
  | (Ok rA, gA), (Ok rB, gB) => Forall2 (same_entry feed gA gB) rA rB
  | (Err eA, _), (Err eB, _) => eA = eB
  | _, _ => False
  end.
Proof.
  intros Hg Hys Hxs Hlen Hones.
  pose proof (fwd_gradients_two_seeds feed 1 g ys xs assert_unused
                None (Some ones) Hg Hys Hxs) as H.
  match type of H with
  | ?A -> _ => assert (HA : A); [| specialize (H HA)]
  end.
  - intros g1 dydxs [e ->] Hc Hd gA gB _ _ [-> ->].
    unfold default_grad_ys. rewrite Hlen, Hd, Nat.eqb_refl.
    destruct (default_seeds_are_ones feed (g ++ e) dydxs ones (g ++ e))
      as (lA & eA & Hl & Hrel).
    + now rewrite Hlen, Hd.
    + eapply Forall_impl; [| exact Hones]. cbn beta.
      intros s [Hs Hv]. unfold below in Hs. rewrite length_app.
      split; [lia |]. now rewrite eval_app.
    + exists lA, eA, ones, []. rewrite !app_nil_r. auto.
  - destruct (fwd_gradients ys xs None assert_unused g) as [[rA | eA] gA],
      (fwd_gradients ys xs (Some ones) assert_unused g) as [[rB | eB] gB];
      auto.
    now apply scaled_entry_one.
Qed.

Lemma fwd_gradients_default_seed_witness :
  match fwd_gradients [2] [0; 1] None false scaled_product_graph,
        fwd_gradients [2] [0; 1] (Some [3; 3]) false scaled_product_graph with
  | (Ok rA, gA), (Ok rB, gB) => Forall2 (same_entry sample_feed gA gB) rA rB
  | (Err eA, _), (Err eB, _) => eA = eB
  | _, _ => False
  end.
Proof.
  apply (fwd_gradients_default_seed sample_feed scaled_product_graph
           [2] [0; 1] [3; 3] false).
  - exact closed_scaled_product_graph.
  - cbn. forall_cons; unfold below; lia.
  - cbn. forall_cons; unfold below; lia.
  - reflexivity.
  - cbn. forall_cons; (split; [unfold below; lia | reflexivity]).
Defined.

(** * Further properties of the construction *)

(** ** Graph evolution *)

Lemma run_node_code (feed : Tensor -> Z) (vals : list Value) (n n' : Node) :
  op n = op n' -> control_inputs n = control_inputs n' ->
  run_node feed vals n = run_node feed vals n'.
Proof. intros Ho Hc. unfold run_node. now rewrite Ho, Hc. Qed.

Lemma run_from_code (feed : Tensor -> Z) (g : Graph) :
  forall g' vals,
    code_of g = code_of g' -> run_from feed vals g = run_from feed vals g'.
Proof.
  induction g as [| n g IH]; intros [| n' g'] vals H; cbn in H;
    try discriminate; [reflexivity |].
  injection H as Ho Hc Hg. cbn.
  rewrite (run_node_code feed vals n n' Ho Hc). now apply IH.
Qed.

Lemma code_of_length (g : Graph) : List.length (code_of g) = List.length g.
Proof. apply length_map. Qed.

(** A node of [g] evaluates in an evolved graph to what it evaluated to. *)
Lemma eval_evolves (feed : Tensor -> Z) (g g' : Graph) (t : Tensor) :
  evolves g g' -> t < List.length g -> eval g' feed t = eval g feed t.
Proof.
  intros [[e He] _] Ht.
  set (e' := map (fun c : Op * list Tensor =>
                    mkNode (fst c) (snd c) None DT_FLOAT) e).
  assert (Hc : code_of g' = code_of (g ++ e')).
  { rewrite He. unfold code_of, e'. rewrite map_app, map_map. f_equal.
    cbn. clear. induction e as [| [o c] e IH]; cbn; [reflexivity |].
    now rewrite <- IH. }
  unfold eval, run. rewrite (run_from_code feed g' (g ++ e') [] Hc).
  now apply eval_app.
Qed.

Lemma evolves_refl (g : Graph) : evolves g g.
Proof. split; [exists []; now rewrite app_nil_r | auto]. Qed.

Lemma evolves_trans (g1 g2 g3 : Graph) :
  evolves g1 g2 -> evolves g2 g3 -> evolves g1 g3.
Proof.
  intros [[e1 H1] S1] [[e2 H2] S2]. split; [| auto].
  exists (e1 ++ e2). now rewrite H2, H1, app_assoc.
Qed.

Lemma evolves_snoc (g : Graph) (n : Node) : evolves g (g ++ [n]).
Proof.
  split.
  - eexists. unfold code_of. now rewrite map_app.
  - intros t s H. unfold shape_of in *.
    destruct (nth_error g t) as [nd |] eqn:Hn; [| discriminate].
    now rewrite (nth_error_app_some _ _ _ _ Hn).
Qed.

Lemma nth_error_list_update {A} (l : list A) :
  forall i j a,
    nth_error (list_update l i a) j
    = if Nat.eqb j i
      then match nth_error l i with Some _ => Some a | None => None end
      else nth_error l j.
Proof.
  induction l as [| x l IH]; intros [| i] [| j] a; cbn; try reflexivity.
  - now destruct (Nat.eqb j i).
  - apply IH.
Qed.

Lemma code_of_list_update (g : Graph) :
  forall t n n',
    nth_error g t = Some n -> op n' = op n ->
    control_inputs n' = control_inputs n ->
    code_of (list_update g t n') = code_of g.
Proof.
  induction g as [| x g IH]; intros [| t] n n' Hn Ho Hc; cbn in *;
    try discriminate.
  - injection Hn as ->. now rewrite Ho, Hc.
  - f_equal. now apply (IH t n n').
Qed.

Lemma merge_with_keeps (a b r : TensorShape) (s : list nat) :
  ops.merge_with a b = Ok r -> a = Some s \/ b = Some s -> r = Some s.
Proof.
  unfold ops.merge_with. destruct a as [x |], b as [y |]; intros H [E | E];
    try discriminate; try (destruct (list_eq_dec Nat.eq_dec x y));
    try discriminate; injection H as <-; congruence.
Qed.

Section Evolving.

Lemma evolving_ret {A} (a : A) : evolving (ret a).
Proof. intros g r g' H. injection H as _ <-. apply evolves_refl. Qed.

Lemma evolving_raise {A} (e : PyError) : evolving (@raise A e).
Proof. intros g r g' H. injection H as _ <-. apply evolves_refl. Qed.

Lemma evolving_bind {A B} (m : M A) (f : A -> M B) :
  evolving m -> (forall a, evolving (f a)) -> evolving (bind m f).
Proof.
  intros Hm Hf g r g' H. unfold bind in H.
  destruct (m g) as [[a | e] g1] eqn:E.
  - eapply evolves_trans; [eapply Hm, E | eapply Hf, H].
  - injection H as _ <-. eapply Hm, E.
Qed.

Lemma evolving_read {A} (f : Graph -> A) :
  evolving (fun g => (Ok (f g), g)).
Proof. intros g r g' H. injection H as _ <-. apply evolves_refl. Qed.

Lemma evolving_add_node (n : Node) : evolving (add_node n).
Proof. intros g r g' H. injection H as _ <-. apply evolves_snoc. Qed.

Lemma evolving_mapM {A B} (f : A -> M B) (l : list A) :
  (forall a, evolving (f a)) -> evolving (mapM f l).
Proof.
  intros Hf. induction l as [| a l IH]; cbn [mapM].
  - apply evolving_ret.
  - apply evolving_bind; [apply Hf |]. intros b.
    apply evolving_bind; [exact IH |]. intros bs. apply evolving_ret.
Qed.

Lemma evolving_set_shape (t : Tensor) (s : TensorShape) :
  evolving (ops.set_shape t s).
Proof.
  intros g r g' H. unfold ops.set_shape in H.
  destruct (nth_error g t) as [n |] eqn:Hn;
    [| injection H as _ <-; apply evolves_refl].
  destruct (ops.merge_with (shape n) s) as [s' |] eqn:Hm;
    [| injection H as _ <-; apply evolves_refl].
  injection H as _ <-. split.
  - exists []. rewrite app_nil_r.
    now apply (code_of_list_update g t n).
  - intros t0 s0 H0. unfold shape_of in *.
    rewrite nth_error_list_update.
    destruct (Nat.eqb t0 t) eqn:Et; [| exact H0].
    apply Nat.eqb_eq in Et. subst t0. rewrite Hn in *. cbn.
    f_equal. eapply merge_with_keeps; [exact Hm |]. left. congruence.
Qed.

End Evolving.

Ltac evolve :=
  repeat match goal with
    | |- evolving (ret _) => apply evolving_ret
    | |- evolving (raise _) => apply evolving_raise
    | |- evolving (add_node _) => apply evolving_add_node
    | |- evolving (ops.set_shape _ _) => apply evolving_set_shape
    | |- evolving (get_dtype ?t) =>
        apply (evolving_read (fun g => dtype_of g t))
    | |- evolving (get_shape ?t) =>
        apply (evolving_read (fun g => shape_of g t))
    | |- evolving graph_size =>
        apply (evolving_read (fun g => List.length g))
    | |- evolving (bind _ _) => apply evolving_bind; [| intros ?]
    end.

Section EvolvingOps.

Lemma evolving_like (t : Tensor) (o : Op) : evolving (like t o).
Proof. unfold like. evolve. Qed.

Lemma evolving_zeros_like (t : Tensor) : evolving (array_ops.zeros_like t).
Proof.
  intros g r g' H. unfold array_ops.zeros_like in H.
  eapply evolving_add_node, H.
Qed.

Lemma evolving_add_float (t : Tensor) (v : scalar) :
  evolving (ops.add_float t v).
Proof.
  unfold ops.add_float. evolve.
  destruct (accepts_python_float _); evolve.
Qed.

Lemma evolving_convert_to_tensor (s : IndexedSlices) :
  evolving (ops.convert_to_tensor s).
Proof. unfold ops.convert_to_tensor. evolve. Qed.

Lemma evolving_as_tensor (x : TensorLike) : evolving (as_tensor x).
Proof.
  destruct x; cbn [as_tensor]; [evolve | apply evolving_convert_to_tensor].
Qed.

Lemma evolving_aggregated (self : Tensor) (l : list TensorLike) :
  evolving (aggregated self l).
Proof.
  unfold aggregated. destruct l as [| x [| y l]]; evolve.
  - apply evolving_mapM, evolving_as_tensor.
  - apply evolving_like.
Qed.

Lemma evolving_op_grad (o : Op) (gr : TensorLike) : evolving (op_grad o gr).
Proof.
  destruct o; cbn [op_grad]; evolve;
    first [apply evolving_as_tensor | apply evolving_like].
Qed.

Lemma evolving_backprop (k : nat) :
  forall pend grads, evolving (backprop k pend grads).
Proof.
  induction k as [| i IH]; intros pend grads; cbn [backprop]; evolve.
  - apply evolving_aggregated.
  - destruct a as [gr |]; [| apply IH].
    unfold get_op. apply evolving_bind; [apply evolving_read |]. intros o.
    apply evolving_bind; [apply evolving_op_grad |]. intros cs. apply IH.
Qed.

Lemma evolving_gradients (ys xs : list Tensor) (s : option (list Tensor)) :
  evolving (gradients ys xs s).
Proof.
  unfold gradients, default_grad_ys. evolve.
  - destruct s as [l |]; [destruct (Nat.eqb _ _); evolve |].
    apply evolving_mapM. intros y. apply evolving_like.
  - apply evolving_backprop.
Qed.

Lemma evolving_dual_placeholders (ys : list Tensor) :
  evolving (dual_placeholders ys).
Proof.
  unfold dual_placeholders. apply evolving_mapM. intros y. evolve.
  - apply evolving_zeros_like.
  - apply evolving_add_float.
Qed.

Lemma evolving_to_dense (d : option TensorLike) : evolving (to_dense d).
Proof.
  destruct d as [[t | s] |]; cbn [to_dense]; evolve.
  apply evolving_convert_to_tensor.
Qed.

Lemma evolving_control_dependencies (l : list (option Tensor)) :
  evolving (ops.control_dependencies l).
Proof.
  induction l as [| [t |] l IH]; cbn [ops.control_dependencies]; evolve.
  exact IH.
Qed.

Lemma evolving_identity_nodes (ctrl : list Tensor) (l : list (option Tensor)) :
  evolving (array_ops.identity_nodes ctrl l).
Proof.
  induction l as [| [t |] l IH]; cbn [array_ops.identity_nodes]; evolve.
  exact IH.
Qed.

Lemma evolving_identity_n (ctrl : list Tensor) (l : list (option Tensor)) :
  evolving (array_ops.identity_n ctrl l).
Proof.
  unfold array_ops.identity_n. destruct l;
    [apply evolving_raise | apply evolving_identity_nodes].
Qed.

Lemma evolving_instrument (assert_unused : bool)
      (l : list (option Tensor)) :
  evolving (instrument assert_unused l).
Proof.
  unfold instrument, control_flow_ops.Assert. destruct assert_unused; evolve.
  - apply evolving_control_dependencies.
  - apply evolving_identity_n.
Qed.

Lemma evolving_or_zeros (p : Tensor * option Tensor) : evolving (or_zeros p).
Proof.
  unfold or_zeros. destruct (snd p); [evolve | apply evolving_zeros_like].
Qed.

Lemma evolving_force_shape (p : Tensor * Tensor) : evolving (force_shape p).
Proof. unfold force_shape. evolve. Qed.

Lemma evolving_fwd_gradients_dydxs (ys xs : list Tensor)
      (assert_unused : bool) :
  evolving (fwd_gradients_dydxs ys xs assert_unused).
Proof.
  unfold fwd_gradients_dydxs. evolve.
  - apply evolving_dual_placeholders.
  - apply evolving_gradients.
  - apply evolving_mapM, evolving_to_dense.
  - apply evolving_instrument.
  - apply evolving_mapM, evolving_or_zeros.
  - apply evolving_mapM, evolving_force_shape.
Qed.

End EvolvingOps.

(** ** What can be raised *)

Section Outcome.

Lemma outcome_ret {A} (a : A) (Q : A -> Prop) (E : PyError -> Prop) :
  Q a -> outcome (ret a) Q E.
Proof. intros H g. exists (Ok a), g. auto. Qed.

Lemma outcome_raise {A} (e : PyError) (Q : A -> Prop) (E : PyError -> Prop) :
  E e -> outcome (raise e) Q E.
Proof. intros H g. exists (Err e), g. auto. Qed.

Lemma outcome_bind {A B} (m : M A) (f : A -> M B) (Q : A -> Prop)
      (R : B -> Prop) (E : PyError -> Prop) :
  outcome m Q E -> (forall a, Q a -> outcome (f a) R E) ->
  outcome (bind m f) R E.
Proof.
  intros Hm Hf g. destruct (Hm g) as ([a | e] & g1 & Hr & H).
  - destruct (Hf a H g1) as (r & g2 & Hr2 & H2).
    exists r, g2. now rewrite (bind_ok _ _ _ _ _ Hr).
  - exists (Err e), g1. now rewrite (bind_err _ _ _ _ _ Hr).
Qed.

Lemma outcome_weaken {A} (m : M A) (Q Q' : A -> Prop)
      (E E' : PyError -> Prop) :
  outcome m Q E -> (forall a, Q a -> Q' a) -> (forall e, E e -> E' e) ->
  outcome m Q' E'.
Proof.
  intros Hm HQ HE g. destruct (Hm g) as (r & g1 & Hr & H).
  exists r, g1. split; [exact Hr |]. destruct r; auto.
Qed.

Lemma outcome_read {A} (f : Graph -> A) (E : PyError -> Prop) :
  outcome (fun g => (Ok (f g), g)) (fun _ => True) E.
Proof. intros g. exists (Ok (f g)), g. auto. Qed.

Lemma outcome_add_node (n : Node) (E : PyError -> Prop) :
  outcome (add_node n) (fun _ => True) E.
Proof. intros g. eexists (Ok _), _. split; [reflexivity | exact I]. Qed.

Lemma outcome_mapM {A B} (f : A -> M B) (Q : B -> Prop)
      (E : PyError -> Prop) (l : list A) :
  (forall a, outcome (f a) Q E) ->
  outcome (mapM f l)
    (fun bs => Forall Q bs /\ List.length bs = List.length l) E.
Proof.
  intros Hf. induction l as [| a l IH]; cbn [mapM].
  - apply outcome_ret. split; [constructor | reflexivity].
  - eapply outcome_bind; [apply Hf |]. intros b Hb.
    eapply outcome_bind; [exact IH |]. intros bs [Hbs Hlen].
    apply outcome_ret. split; [now constructor | cbn; now rewrite Hlen].
Qed.

End Outcome.

Ltac returns :=
  repeat match goal with
    | |- outcome (ret _) _ _ => apply outcome_ret; try exact I
    | |- outcome (add_node _) _ _ => apply outcome_add_node
    | |- outcome (get_dtype ?t) _ _ =>
        apply (outcome_read (fun g => dtype_of g t))
    | |- outcome (get_shape ?t) _ _ =>
        apply (outcome_read (fun g => shape_of g t))
    | |- outcome (bind _ _) _ _ => eapply outcome_bind; [| intros ? ?]
    end.

Section OutcomeOps.

Variable E : PyError -> Prop.

Lemma outcome_like (t : Tensor) (o : Op) :
  outcome (like t o) (fun _ => True) E.
Proof. unfold like. returns. Qed.


Lemma outcome_convert_to_tensor (s : IndexedSlices) :
  outcome (ops.convert_to_tensor s) (fun _ => True) E.
Proof. unfold ops.convert_to_tensor. returns. Qed.

Lemma outcome_as_tensor (x : TensorLike) :
  outcome (as_tensor x) (fun _ => True) E.
Proof.
  destruct x; cbn [as_tensor]; [returns | apply outcome_convert_to_tensor].
Qed.

Lemma outcome_aggregated (self : Tensor) (l : list TensorLike) :
  outcome (aggregated self l) (fun _ => True) E.
Proof.
  unfold aggregated. destruct l as [| x [| y l]]; returns.
  - apply outcome_mapM, outcome_as_tensor.
  - apply outcome_like.
Qed.

Lemma outcome_op_grad (o : Op) (gr : TensorLike) :
  outcome (op_grad o gr) (fun _ => True) E.
Proof.
  destruct o; cbn [op_grad]; returns;
    first [apply outcome_as_tensor | apply outcome_like].
Qed.

Lemma outcome_backprop (k : nat) :
  forall pend grads, outcome (backprop k pend grads) (fun _ => True) E.
Proof.
  induction k as [| i IH]; intros pend grads; cbn [backprop]; returns.
  - apply outcome_aggregated.
  - destruct a as [gr |]; [| apply IH].
    unfold get_op. eapply outcome_bind; [apply outcome_read |]. intros o _.
    eapply outcome_bind; [apply outcome_op_grad |]. intros cs _. apply IH.
Qed.

End OutcomeOps.

(** The reverse-mode primitive returns one entry per target whenever it is
    given no seed or one seed per output. *)
Lemma gradients_returns (ys xs : list Tensor) (s : option (list Tensor)) :
  match s with
  | Some l => List.length l = List.length ys
  | None => True
  end ->
  outcome (gradients ys xs s)
    (fun r => List.length r = List.length xs) no_error.
Proof.
  intros Hs. unfold gradients, graph_size.
  eapply outcome_bind; [apply outcome_read |]. intros n _.
  eapply outcome_bind with (Q := fun _ => True).
  - unfold default_grad_ys. destruct s as [l |].
    + rewrite Hs, Nat.eqb_refl. now apply outcome_ret.
    + eapply outcome_weaken;
        [apply outcome_mapM; intros y; apply (outcome_like no_error)
        | auto | auto].
  - intros seeds _. eapply outcome_bind; [apply outcome_backprop |].
    intros grads _. apply outcome_ret. apply length_map.
Qed.

(** With a number of seeds that differs from the number of outputs it
    raises at once, before it registers a node. *)
Lemma gradients_bad_seed (ys xs l : list Tensor) (g : Graph) :
  List.length l <> List.length ys ->
  gradients ys xs (Some l) g = (Err ValueError, g).
Proof.
  intros H. unfold gradients, graph_size, default_grad_ys, bind.
  apply Nat.eqb_neq in H. now rewrite H.
Qed.

(** ** The result and the errors of a call *)

(** X1: a call that returns gives one entry per element of [ys], whatever
    [xs], [grad_xs] and [assert_unused] are. *)
Theorem result_has_one_entry_per_y
        (ys xs : list Tensor) (grad_xs : option (list Tensor))
        (assert_unused : bool) (g g' : Graph)
        (r : list (option TensorLike)) :
  fwd_gradients ys xs grad_xs assert_unused g = (Ok r, g') ->
  List.length r = List.length ys.
Proof. apply fwd_gradients_length. Qed.

Lemma result_has_one_entry_per_y_witness :
  List.length [Some (Dense 22); Some (Dense 27)] = List.length [0; 2].
Proof.
  apply (result_has_one_entry_per_y [0; 2] [0; 0; 1] None true
           scaled_product_graph
           (snd (fwd_gradients [0; 2] [0; 0; 1] None true
                   scaled_product_graph))).
  vm_compute. reflexivity.
Defined.

(** X2: a [grad_xs] whose length is not [len(xs)] is never accepted, and it
    is found out last: the call raises what the first stage raises, or else
    a [ValueError] from the second reverse-mode call, with every node of the
    first stage already registered. *)
Theorem bad_grad_xs_length_raises_last
        (ys xs l : list Tensor) (assert_unused : bool) (g : Graph) :
  List.length l <> List.length xs ->
  fwd_gradients ys xs (Some l) assert_unused g =
  match fwd_gradients_dydxs ys xs assert_unused g with
  | (Ok _, g1) => (Err ValueError, g1)
  | (Err e, g1) => (Err e, g1)
  end.
Proof.
  intros Hl. unfold fwd_gradients.
  destruct (fwd_gradients_dydxs ys xs assert_unused g)
    as [[[us dydxs] | e] g1] eqn:Hp.
  - rewrite (bind_ok _ _ _ _ _ Hp). cbn [fst snd].
    apply fwd_gradients_dydxs_length in Hp. destruct Hp as [_ Hd].
    apply bind_err, gradients_bad_seed. congruence.
  - now rewrite (bind_err _ _ _ _ _ Hp).
Qed.

Lemma bad_grad_xs_length_raises_last_witness :
  fwd_gradients [2] [0; 1] (Some [3]) false product_graph =
  match fwd_gradients_dydxs [2] [0; 1] false product_graph with
  | (Ok _, g1) => (Err ValueError, g1)
  | (Err e, g1) => (Err e, g1)
  end.
Proof.
  apply (bad_grad_xs_length_raises_last [2] [0; 1] [3] false product_graph).
  cbn. lia.
Defined.

Lemma dtype_of_app (g e : Graph) (t : Tensor) :
  t < List.length g -> dtype_of (g ++ e) t = dtype_of g t.
Proof. intros H. unfold dtype_of. now rewrite nth_error_app1. Qed.

(** Dual placeholders of floating-point outputs are always built. *)
Lemma dual_placeholders_floating (ys : list Tensor) :
  forall g,
    Forall (floating_in g) ys ->
    exists us e,
      dual_placeholders ys g = (Ok us, g ++ e)
      /\ List.length us = List.length ys.
Proof.
  induction ys as [| y ys IH]; intros g Hys.
  - exists [], []. rewrite app_nil_r. split; reflexivity.
  - inversion Hys as [| ? ? [Hy Hf] Hys']; subst.
    unfold dual_placeholders. cbn [mapM].
    pose proof (dual_placeholder_step y g) as Hstep. cbv zeta in Hstep.
    unfold accepts_python_float in Hstep. rewrite Hf in Hstep.
    cbn [orb] in Hstep. rewrite (bind_ok _ _ _ _ _ Hstep).
    match type of Hstep with
    | _ = (_, g ++ ?e1) =>
        destruct (IH (g ++ e1)) as (us & e & Hus & Hlen)
    end.
    + eapply Forall_impl; [| exact Hys']. intros t [Ht Hft]. split.
      * rewrite length_app. lia.
      * now rewrite dtype_of_app.
    + unfold dual_placeholders in Hus. rewrite (bind_ok _ _ _ _ _ Hus).
      eexists _, (_ ++ e). rewrite app_assoc. split; [reflexivity |].
      cbn. now rewrite Hlen.
Qed.

Section StageOutcome.



Lemma outcome_to_dense (E : PyError -> Prop) (d : option TensorLike) :
  outcome (to_dense d) (fun _ => True) E.
Proof.
  destruct d as [[t | s] |]; cbn [to_dense]; returns.
  apply outcome_convert_to_tensor.
Qed.


End StageOutcome.

(** ** The instrumentation and missing derivatives *)

Lemma control_dependencies_none (l : list (option Tensor)) (g : Graph) :
  In None l -> ops.control_dependencies l g = (Err TypeError, g).
Proof.
  induction l as [| [t |] l IH]; intros Hin; cbn [ops.control_dependencies].
  - destruct Hin.
  - destruct Hin as [H | H]; [discriminate |].
    apply bind_err. now apply IH.
  - reflexivity.
Qed.

Lemma densified_none (g' : Graph) (n0 : nat) (d1 : list (option TensorLike))
      (d2 : list (option Tensor)) :
  Forall2 (densified g' n0) d1 d2 -> In None d1 -> In None d2.
Proof.
  induction 1 as [| x o d1 d2 Hx _ IH]; intros Hin; [destruct Hin |].
  destruct Hin as [-> | Hin]; [left; exact Hx | right; now apply IH].
Qed.

(** X5: with [assert_unused], a derivative the first reverse-mode call
    leaves out (a [None] entry) makes the call raise a [TypeError]: the
    entry reaches [ops.control_dependencies] of line 64 before lines 69-70
    can replace it.  No [Assert] or identity node has been registered then:
    the graph is the one the conversion of lines 60-61 leaves. *)
Theorem instrumented_call_rejects_missing_derivative
        (g g1 g2 : Graph) (ys xs us : list Tensor)
        (d1 : list (option TensorLike)) (grad_xs : option (list Tensor)) :
  dual_placeholders ys g = (Ok us, g1) ->
  gradients ys xs (Some us) g1 = (Ok d1, g2) ->
  In None d1 ->
  exists d2 g3,
    mapM to_dense d1 g2 = (Ok d2, g3)
    /\ fwd_gradients ys xs grad_xs true g = (Err TypeError, g3).
Proof.
  intros Hus Hd1 Hin.
  destruct (mapM_to_dense_spec d1 g2) as (d2 & e & Hd2 & Hrel).
  exists d2, (g2 ++ e). split; [exact Hd2 |].
  unfold fwd_gradients, fwd_gradients_dydxs.
  apply bind_err.
  rewrite (bind_ok _ _ _ _ _ Hus), (bind_ok _ _ _ _ _ Hd1),
    (bind_ok _ _ _ _ _ Hd2).
  apply bind_err. unfold instrument. apply bind_err.
  apply control_dependencies_none. eapply densified_none; eassumption.
Qed.

Lemma instrumented_call_rejects_missing_derivative_witness :
  exists d2 g3,
    mapM to_dense [None]
      (snd (gradients [1] [0] (Some [7])
              (snd (dual_placeholders [1] product_graph))))
    = (Ok d2, g3)
    /\ fwd_gradients [1] [0] None true product_graph = (Err TypeError, g3).
Proof.
  apply (instrumented_call_rejects_missing_derivative product_graph
           (snd (dual_placeholders [1] product_graph)) _ [1] [0] [7]
           [None] None).
  - vm_compute. reflexivity.
  - vm_compute. reflexivity.
  - left. reflexivity.
Defined.

Lemma backprop_idle (k : nat) (grads : Grads) (g : Graph) :
  backprop k (fun _ => []) grads g = (Ok grads, g).
Proof.
  induction k as [| i IH]; cbn [backprop]; [reflexivity |].
  cbv beta. unfold aggregated, bind at 1. cbn [ret]. exact IH.
Qed.

Lemma gradients_of_nothing (us : list Tensor) (s : option (list Tensor))
      (g : Graph) :
  s = None \/ s = Some [] ->
  gradients [] us s g = (Ok (map (fun _ => None) us), g).
Proof.
  intros [-> | ->]; unfold gradients, graph_size, default_grad_ys, bind;
    cbn; now rewrite backprop_idle.
Qed.

Lemma instrument_nothing (assert_unused : bool) (g : Graph) :
  exists g',
    instrument assert_unused [] g
    = (if assert_unused then Err ValueError else Ok [], g').
Proof. destruct assert_unused; eexists; reflexivity. Qed.

(** X6: with no [xs] there is nothing to differentiate with respect to.  On
    floating-point outputs and with [grad_xs] absent or empty, the call
    without [assert_unused] returns [None] for every [y]; the call with
    [assert_unused] raises a [ValueError], because [array_ops.identity_n] of
    line 67 is given an empty list. *)
Theorem empty_xs_gives_none_or_raises
        (g : Graph) (ys : list Tensor) (grad_xs : option (list Tensor))
        (assert_unused : bool) :
  Forall (floating_in g) ys ->
  grad_xs = None \/ grad_xs = Some [] ->
  exists g',
    fwd_gradients ys [] grad_xs assert_unused g
    = (if assert_unused then Err ValueError
       else Ok (repeat None (List.length ys)), g').
Proof.
  intros Hys Hs.
  destruct (dual_placeholders_floating ys g Hys) as (us & e & Hd & Hus).
  destruct (gradients_returns ys [] (Some us) Hus (g ++ e))
    as ([d1 | err] & g2 & Hd1 & H); [| destruct H].
  destruct d1; [| discriminate].
  destruct (instrument_nothing assert_unused g2) as (g3 & Hi).
  exists g3. unfold fwd_gradients, fwd_gradients_dydxs.
  destruct assert_unused.
  - apply bind_err.
    rewrite (bind_ok _ _ _ _ _ Hd), (bind_ok _ _ _ _ _ Hd1).
    cbn [mapM]. unfold ret at 1. unfold bind at 1.
    now rewrite (bind_err _ _ _ _ _ Hi).
  - rewrite (bind_ok _ _ g g3 (us, [])).
    + rewrite bind_ret_r. cbn [fst snd].
      rewrite gradients_of_nothing by exact Hs.
      rewrite <- Hus. f_equal. f_equal. clear.
      induction us; cbn; [reflexivity | now f_equal].
    + rewrite (bind_ok _ _ _ _ _ Hd), (bind_ok _ _ _ _ _ Hd1).
      cbn [mapM]. unfold ret at 1. unfold bind at 1.
      rewrite (bind_ok _ _ _ _ _ Hi). reflexivity.
Qed.

Lemma empty_xs_gives_none_or_raises_witness :
  exists g',
    fwd_gradients [2; 0] [] None false product_graph
    = (if false then Err ValueError
       else Ok (repeat None (List.length [2; 0])), g').
Proof.
  apply (empty_xs_gives_none_or_raises product_graph [2; 0] None false).
  - repeat constructor.
  - left. reflexivity.
Defined.

(** ** What a call leaves behind *)

Lemma evolving_fwd_gradients (ys xs : list Tensor)
      (grad_xs : option (list Tensor)) (assert_unused : bool) :
  evolving (fwd_gradients ys xs grad_xs assert_unused).
Proof.
  unfold fwd_gradients. evolve.
  - apply evolving_fwd_gradients_dydxs.
  - apply evolving_gradients.
Qed.

(** X7: whatever a call does, returning or raising, every node that was in
    the graph before it evaluates afterwards to what it evaluated to before,
    under every feed. *)
Theorem existing_nodes_evaluate_the_same
        (feed : Tensor -> Z) (g g' : Graph) (ys xs : list Tensor)
        (grad_xs : option (list Tensor)) (assert_unused : bool)
        (r : Result PyError (list (option TensorLike))) (t : Tensor) :
  fwd_gradients ys xs grad_xs assert_unused g = (r, g') ->
  t < List.length g ->
  eval g' feed t = eval g feed t.
Proof.
  intros H Ht. apply eval_evolves; [| exact Ht].
  eapply evolving_fwd_gradients, H.
Qed.

Lemma existing_nodes_evaluate_the_same_witness :
  eval (snd (fwd_gradients [2] [0; 3] None true product_graph)) sample_feed 2
  = eval product_graph sample_feed 2.
Proof.
  apply (existing_nodes_evaluate_the_same sample_feed product_graph _
           [2] [0; 3] None true
           (fst (fwd_gradients [2] [0; 3] None true product_graph))).
  - vm_compute. reflexivity.
  - cbn. lia.
Defined.

Lemma within_fwd_gradients (k : nat) (ys xs : list Tensor)
      (grad_xs : option (list Tensor)) (assert_unused : bool) :
  Forall (below k) ys -> Forall (below k) xs ->
  match grad_xs with
  | Some l => Forall (below k) l
  | None => True
  end ->
  within k (fwd_gradients ys xs grad_xs assert_unused)
    (fun k' r => Forall (opt_handle_below k') r).
Proof.
  intros Hys Hxs Hs. unfold fwd_gradients.
  eapply within_bind; [now apply within_fwd_gradients_dydxs |].
  intros p k1 Hk1 _. eapply within_bind.
  - apply within_gradients. destruct grad_xs as [l |]; [| exact I].
    eapply Forall_below_mono; eassumption.
  - intros r k2 Hk2 Hr. apply within_ret. intros k3 Hk3.
    eapply Forall_impl; [| exact Hr]. intros o.
    now apply opt_handle_below_mono.
Qed.

(** X8: a call on a graph in which every node reads existing nodes, with
    [ys], [xs] and [grad_xs] among its nodes, leaves such a graph, whether it
    returns or raises; and every entry it returns that is not [None] is held
    in a node of that graph. *)
Theorem call_keeps_graph_well_formed
        (g : Graph) (ys xs : list Tensor) (grad_xs : option (list Tensor))
        (assert_unused : bool) :
  closed g ->
  Forall (below (List.length g)) ys -> Forall (below (List.length g)) xs ->
  match grad_xs with
  | Some l => Forall (below (List.length g)) l
  | None => True
  end ->
  exists r g',
    fwd_gradients ys xs grad_xs assert_unused g = (r, g')
    /\ closed g'
    /\ match r with
       | Ok l => Forall (opt_handle_below (List.length g')) l
       | Err _ => True
       end.
Proof.
  intros Hg Hys Hxs Hs.
  destruct (within_fwd_gradients (List.length g) ys xs grad_xs assert_unused
              Hys Hxs Hs g Hg (Nat.le_refl _))
    as (r & g' & Hr & Hc & _ & H).
  exists r, g'. auto.
Qed.

Lemma call_keeps_graph_well_formed_witness :
  exists r g',
    fwd_gradients [1] [0] (Some [2]) true segment_sum_graph = (r, g')
    /\ closed g'
    /\ match r with
       | Ok l => Forall (opt_handle_below (List.length g')) l
       | Err _ => True
       end.
Proof.
  apply (call_keeps_graph_well_formed segment_sum_graph [1] [0] (Some [2])
           true).
  - unfold closed. cbn. forall_cons; split; forall_cons; unfold below; lia.
  - cbn. forall_cons; unfold below; lia.
  - cbn. forall_cons; unfold below; lia.
  - cbn. forall_cons; unfold below; lia.
Defined.

(** ** The steps of the first stage *)

Lemma fwd_gradients_dydxs_inv (ys xs : list Tensor) (assert_unused : bool)
      (g g' : Graph) (us dydxs : list Tensor) :
  fwd_gradients_dydxs ys xs assert_unused g = (Ok (us, dydxs), g') ->
  exists g1 d1 g2 d2 g3 d3 g4 g5 u,
    dual_placeholders ys g = (Ok us, g1)
    /\ gradients ys xs (Some us) g1 = (Ok d1, g2)
    /\ mapM to_dense d1 g2 = (Ok d2, g3)
    /\ instrument assert_unused d2 g3 = (Ok d3, g4)
    /\ mapM or_zeros (combine xs d3) g4 = (Ok dydxs, g5)
    /\ mapM force_shape (combine xs dydxs) g5 = (Ok u, g').
Proof.
  unfold fwd_gradients_dydxs. intros H.
  apply bind_inv in H. destruct H as (us0 & g1 & H1 & H).
  apply bind_inv in H. destruct H as (d1 & g2 & H2 & H).
  apply bind_inv in H. destruct H as (d2 & g3 & H3 & H).
  apply bind_inv in H. destruct H as (d3 & g4 & H4 & H).
  apply bind_inv in H. destruct H as (d4 & g5 & H5 & H).
  apply bind_inv in H. destruct H as (u & g6 & H6 & H).
  injection H as <- <- <-.
  exists g1, d1, g2, d2, g3, d3, g4, g5, u. auto 10.
Qed.

(** Known static shapes survive the shape forcing, and each pair ends with
    the derivative carrying the known shape of its [x]. *)
Lemma force_shapes_spec (l : list (Tensor * Tensor)) :
  forall g g' u,
    mapM force_shape l g = (Ok u, g') ->
    Forall (fun p => forall s, shape_of g (fst p) = Some s ->
                               shape_of g' (snd p) = Some s) l.
Proof.
  induction l as [| [x d] l IH]; intros g g' u H; [constructor |].
  cbn [mapM] in H.
  apply bind_inv in H. destruct H as (u1 & g1 & H1 & H).
  apply bind_inv in H. destruct H as (us & g2 & H2 & H).
  injection H as _ <-.
  pose proof (evolving_force_shape (x, d) g _ _ H1) as [_ S1].
  pose proof (evolving_mapM force_shape l evolving_force_shape g1 _ _ H2)
    as [_ S2].
  constructor.
  - cbn [fst snd]. intros s Hs. apply S2.
    unfold force_shape, bind, get_shape in H1. cbn [fst snd] in H1.
    unfold ops.set_shape in H1.
    destruct (nth_error g d) as [n |] eqn:Hn; [| discriminate].
    destruct (ops.merge_with (shape n) (shape_of g x)) as [s' |] eqn:Hm;
      [| discriminate].
    injection H1 as _ <-. unfold shape_of at 1.
    rewrite nth_error_list_update, Nat.eqb_refl, Hn. cbn. f_equal.
    eapply merge_with_keeps; [exact Hm |]. now right.
  - eapply Forall_impl; [| eapply IH, H2].
    intros p Hp s Hs. apply Hp, S1, Hs.
Qed.

Lemma Forall_combine_Forall2 {A B} (R : A -> B -> Prop) (l1 : list A) :
  forall l2,
    List.length l1 = List.length l2 ->
    Forall (fun p => R (fst p) (snd p)) (combine l1 l2) ->
    Forall2 R l1 l2.
Proof.
  induction l1 as [| a l1 IH]; intros [| b l2] Hlen H; try discriminate;
    constructor; inversion H; subst; auto.
Qed.

(** X9: when the first stage returns, each derivative it hands to the second
    reverse-mode call carries the static shape of its [x], whenever that
    shape is known ([dydx.set_shape(x.shape)], lines 71-72). *)
Theorem dydxs_carry_the_shapes_of_xs
        (g g' : Graph) (ys xs us dydxs : list Tensor)
        (assert_unused : bool) :
  fwd_gradients_dydxs ys xs assert_unused g = (Ok (us, dydxs), g') ->
  Forall2 (fun x dydx => forall s, shape_of g x = Some s ->
                                   shape_of g' dydx = Some s) xs dydxs.
Proof.
  intros H.
  pose proof (fwd_gradients_dydxs_length _ _ _ _ _ _ _ H) as [_ Hlen].
  apply fwd_gradients_dydxs_inv in H.
  destruct H as (g1 & d1 & g2 & d2 & g3 & d3 & g4 & g5 & u
                 & H1 & H2 & H3 & H4 & H5 & H6).
  assert (Hev : evolves g g5).
  { eapply evolves_trans; [eapply evolving_dual_placeholders, H1 |].
    eapply evolves_trans; [eapply evolving_gradients, H2 |].
    eapply evolves_trans;
      [eapply (evolving_mapM to_dense _ evolving_to_dense), H3 |].
    eapply evolves_trans; [eapply evolving_instrument, H4 |].
    eapply (evolving_mapM or_zeros _ evolving_or_zeros), H5. }
  apply Forall_combine_Forall2; [now symmetry |].
  eapply Forall_impl; [| eapply force_shapes_spec, H6].
  intros p Hp s Hs. apply Hp. now apply (proj2 Hev).
Qed.

Lemma dydxs_carry_the_shapes_of_xs_witness :
  Forall2 (fun x dydx =>
             forall s, shape_of gather_graph x = Some s ->
                       shape_of (snd (fwd_gradients_dydxs [1] [0] true
                                        gather_graph)) dydx = Some s)
    [0] [8].
Proof.
  apply (dydxs_carry_the_shapes_of_xs gather_graph _ [1] [0] [5] [8] true).
  vm_compute. reflexivity.
Defined.

(** ** The values of the dual placeholders *)

Lemma dual_step_eval (feed : Tensor -> Z) (y u : Tensor) (g g1 : Graph) :
  (z <- array_ops.zeros_like y ;; ops.add_float z NaN) g = (Ok u, g1) ->
  y < List.length g ->
  u < List.length g1
  /\ eval g1 feed u = sentinel_of (shape_of g y) (eval g feed y).
Proof.
  intros H Hy. rewrite dual_placeholder_step in H. cbv zeta in H.
  destruct (accepts_python_float (dtype_of g y)); [| discriminate].
  injection H as <- <-.
  set (z := array_ops.zeros_node g y).
  set (c := mkNode (Const NaN) [] (Some []) (dtype_of g y)).
  set (a := mkNode (Add (List.length g) (S (List.length g))) []
              (shape_of g y) (dtype_of g y)).
  split; [rewrite length_app; cbn; lia |].
  assert (Hz : eval ((g ++ [z]) ++ [c]) feed (List.length g)
               = match shape_of g y with
                 | Some _ => Ok (Fin 0%Z)
                 | None =>
                     match eval g feed y with
                     | Ok _ => Ok (Fin 0%Z)
                     | Err e => Err e
                     end
                 end).
  { rewrite eval_app by (rewrite length_app; cbn; lia).
    rewrite eval_snoc. unfold z, array_ops.zeros_node, run_node.
    destruct (shape_of g y); cbn; [reflexivity | now rewrite fetch_eval]. }
  assert (Hc : eval ((g ++ [z]) ++ [c]) feed (S (List.length g)) = Ok NaN).
  { replace (S (List.length g)) with (List.length (g ++ [z]))
      by (rewrite length_app; cbn; lia).
    now rewrite eval_snoc. }
  replace (g ++ [z; c; a]) with (((g ++ [z]) ++ [c]) ++ [a])
    by (now rewrite <- !app_assoc).
  replace (S (S (List.length g))) with (List.length ((g ++ [z]) ++ [c]))
    by (rewrite !length_app; cbn; lia).
  rewrite eval_snoc. unfold run_node. cbn [control_inputs a first_failure op].
  cbn [run_op]. rewrite !fetch_eval, Hz, Hc. unfold sentinel_of.
  destruct (shape_of g y); [reflexivity | now destruct (eval g feed y)].
Qed.

Lemma evolves_length (g g' : Graph) :
  evolves g g' -> List.length g <= List.length g'.
Proof.
  intros [[e He] _]. apply (f_equal (@List.length _)) in He.
  rewrite length_app, !code_of_length in He. lia.
Qed.

Lemma shape_of_app (g e : Graph) (t : Tensor) :
  t < List.length g -> shape_of (g ++ e) t = shape_of g t.
Proof. intros H. unfold shape_of. now rewrite nth_error_app1. Qed.

Lemma dual_placeholders_eval (feed : Tensor -> Z) (g0 : Graph)
      (ys : list Tensor) :
  Forall (below (List.length g0)) ys ->
  forall rest us g1,
    dual_placeholders ys (g0 ++ rest) = (Ok us, g1) ->
    Forall2 (fun u y =>
               u < List.length g1
               /\ eval g1 feed u
                  = sentinel_of (shape_of g0 y) (eval g0 feed y)) us ys.
Proof.
  unfold dual_placeholders.
  induction 1 as [| y ys Hy Hys IH]; intros rest us g1 H; cbn [mapM] in H.
  - injection H as <- _. constructor.
  - unfold below in Hy.
    apply bind_inv in H. destruct H as (u & g2 & Hu & H).
    apply bind_inv in H. destruct H as (us' & g3 & Hus & H).
    injection H as <- <-.
    assert (Hy' : y < List.length (g0 ++ rest))
      by (rewrite length_app; lia).
    pose proof (dual_step_eval feed y u _ g2 Hu Hy') as [Hlt Hev].
    rewrite shape_of_app, eval_app in Hev by exact Hy.
    rewrite dual_placeholder_step in Hu. cbv zeta in Hu.
    destruct (accepts_python_float _); [| discriminate].
    injection Hu as _ <-. rewrite <- app_assoc in *.
    assert (E3 : evolves (g0 ++ rest ++ [array_ops.zeros_node (g0 ++ rest) y;
                 mkNode (Const NaN) [] (Some []) (dtype_of (g0 ++ rest) y);
                 mkNode (Add (List.length (g0 ++ rest))
                           (S (List.length (g0 ++ rest)))) []
                   (shape_of (g0 ++ rest) y) (dtype_of (g0 ++ rest) y)]) g3)
      by (eapply (evolving_dual_placeholders ys), Hus).
    pose proof (evolves_length _ _ E3) as L3.
    constructor.
    + split; [lia |]. now rewrite (eval_evolves feed _ g3 u E3 Hlt).
    + eapply IH, Hus.
Qed.

Lemma first_stage_after_duals (ys xs : list Tensor) (assert_unused : bool)
      (g g' : Graph) (us dydxs : list Tensor) :
  fwd_gradients_dydxs ys xs assert_unused g = (Ok (us, dydxs), g') ->
  exists g1, dual_placeholders ys g = (Ok us, g1) /\ evolves g1 g'.
Proof.
  intros H. apply fwd_gradients_dydxs_inv in H.
  destruct H as (g1 & d1 & g2 & d2 & g3 & d3 & g4 & g5 & u
                 & H1 & H2 & H3 & H4 & H5 & H6).
  exists g1. split; [exact H1 |].
  eapply evolves_trans; [eapply evolving_gradients, H2 |].
  eapply evolves_trans;
    [eapply (evolving_mapM to_dense _ evolving_to_dense), H3 |].
  eapply evolves_trans; [eapply evolving_instrument, H4 |].
  eapply evolves_trans;
    [eapply (evolving_mapM or_zeros _ evolving_or_zeros), H5 |].
  eapply (evolving_mapM force_shape _ evolving_force_shape), H6.
Qed.

(** X11: the dual placeholders hold the sentinel.  When the first stage
    returns, each [u] of a [y] whose static shape is known evaluates in the
    graph it leaves to NaN under every feed, whether or not [y] itself can
    be evaluated (the zeros are a constant); for a [y] of unknown shape, [u]
    evaluates to NaN provided [y] evaluates. *)
Theorem dual_placeholders_hold_nan
        (feed : Tensor -> Z) (g g' : Graph) (ys xs us dydxs : list Tensor)
        (assert_unused : bool) :
  Forall (below (List.length g)) ys ->
  fwd_gradients_dydxs ys xs assert_unused g = (Ok (us, dydxs), g') ->
  Forall2 (fun u y =>
             eval g' feed u = sentinel_of (shape_of g y) (eval g feed y))
    us ys.
Proof.
  intros Hys H.
  destruct (first_stage_after_duals _ _ _ _ _ _ _ H) as (g1 & H1 & E).
  rewrite <- (app_nil_r g) in H1.
  eapply Forall2_impl;
    [| eapply (dual_placeholders_eval feed g ys Hys [] us g1 H1)].
  intros u y [Hu Hev]. now rewrite (eval_evolves feed g1 g' u E Hu).
Qed.

Lemma dual_placeholders_hold_nan_witness :
  Forall2 (fun u y =>
             eval (snd (fwd_gradients_dydxs [2] [0; 1] true product_graph))
               sample_feed u
             = sentinel_of (shape_of product_graph y)
                 (eval product_graph sample_feed y))
    [7] [2].
Proof.
  apply (dual_placeholders_hold_nan sample_feed product_graph _
           [2] [0; 1] [7] [11; 12] true).
  - cbn. forall_cons. unfold below. lia.
  - vm_compute. reflexivity.
Defined.

(** ** The instrumented derivatives *)

Lemma eval_nth (feed : Tensor -> Z) (g : Graph) (i : nat) (nd : Node) :
  nth_error g i = Some nd ->
  exists pre post,
    g = pre ++ nd :: post /\ List.length pre = i
    /\ eval g feed i = run_node feed (run feed pre) nd.
Proof.
  intros H. destruct (nth_error_split _ _ H) as (pre & post & Hg & Hl).
  exists pre, post. split; [exact Hg |]. split; [exact Hl |].
  subst g i. change (pre ++ nd :: post) with (pre ++ [nd] ++ post).
  rewrite app_assoc, eval_app by (rewrite length_app; cbn; lia).
  apply eval_snoc.
Qed.

Lemma failing_control_input (feed : Tensor -> Z) (g : Graph) (i a : nat)
      (nd : Node) (e : RunError) :
  nth_error g i = Some nd -> control_inputs nd = [a] -> a < i ->
  eval g feed a = Err e -> eval g feed i = Err e.
Proof.
  intros Hi Hc Ha He.
  destruct (eval_nth feed g i nd Hi) as (pre & post & Hg & Hl & ->).
  unfold run_node. rewrite Hc. cbn [first_failure].
  rewrite fetch_eval. subst g.
  rewrite eval_app in He by lia. now rewrite He.
Qed.

Lemma false_assert_fails (feed : Tensor -> Z) (g : Graph) (a : nat)
      (nd : Node) (name : string) :
  nth_error g a = Some nd -> op nd = TF.Assert false name ->
  exists e, eval g feed a = Err e.
Proof.
  intros Ha Ho.
  destruct (eval_nth feed g a nd Ha) as (pre & post & _ & _ & ->).
  unfold run_node. destruct (first_failure _ _) as [e |]; [eauto |].
  rewrite Ho. cbn. eauto.
Qed.

Lemma control_dependencies_graph (l : list (option Tensor)) :
  forall g r g', ops.control_dependencies l g = (r, g') -> g' = g.
Proof.
  induction l as [| [t |] l IH]; intros g r g' H;
    cbn [ops.control_dependencies] in H.
  - now injection H as _ <-.
  - unfold bind in H.
    destruct (ops.control_dependencies l g) as [[ts | e] g1] eqn:E;
      apply IH in E; subst g1; now injection H as _ <-.
  - now injection H as _ <-.
Qed.

Lemma identity_nodes_spec (ctrl : list Tensor) (l : list (option Tensor)) :
  forall g ids g',
    array_ops.identity_nodes ctrl l g = (Ok ids, g') ->
    (exists e, g' = g ++ e)
    /\ Forall (fun i => List.length g <= i
                        /\ exists nd, nth_error g' i = Some nd
                                      /\ control_inputs nd = ctrl) ids.
Proof.
  induction l as [| [t |] l IH]; intros g ids g' H;
    cbn [array_ops.identity_nodes] in H.
  - injection H as <- <-. split; [exists []; now rewrite app_nil_r |].
    constructor.
  - apply bind_inv in H. destruct H as (d & g1 & H1 & H).
    apply bind_inv in H. destruct H as (s & g2 & H2 & H).
    apply bind_inv in H. destruct H as (i & g3 & H3 & H).
    apply bind_inv in H. destruct H as (rest & g4 & H4 & H).
    injection H as <- <-. injection H1 as _ <-. injection H2 as _ <-.
    injection H3 as <- <-.
    destruct (IH _ _ _ H4) as ([e ->] & Hrest).
    split; [exists ([mkNode (Identity t) ctrl s d] ++ e);
            now rewrite app_assoc |].
    constructor.
    + split; [apply Nat.le_refl |]. eexists. split.
      * apply nth_error_app_some, nth_error_snoc.
      * reflexivity.
    + eapply Forall_impl; [| exact Hrest]. cbn beta.
      intros j [Hj H]. rewrite length_app in Hj. cbn in Hj.
      split; [lia | exact H].
  - discriminate.
Qed.

Lemma identity_n_spec (ctrl : list Tensor) (l : list (option Tensor)) :
  forall g ids g',
    array_ops.identity_n ctrl l g = (Ok ids, g') ->
    ids <> []
    /\ (exists e, g' = g ++ e)
    /\ Forall (fun i => List.length g <= i
                        /\ exists nd, nth_error g' i = Some nd
                                      /\ control_inputs nd = ctrl) ids.
Proof.
  intros g ids g' H. unfold array_ops.identity_n in H.
  destruct l as [| o l]; [discriminate |].
  split; [| eapply identity_nodes_spec, H].
  apply identity_nodes_length in H. destruct ids; [discriminate | discriminate].
Qed.

Lemma or_zeros_present (P : Tensor -> Prop) (xs : list Tensor) :
  forall ids g d4 g5,
    mapM or_zeros (combine xs (map Some ids)) g = (Ok d4, g5) ->
    Forall P ids -> g5 = g /\ Forall P d4.
Proof.
  induction xs as [| x xs IH]; intros [| i ids] g d4 g5 H HP;
    cbn [combine map mapM] in H;
    try (injection H as <- <-; split; [reflexivity | constructor]).
  apply bind_inv in H. destruct H as (t & g1 & H1 & H).
  apply bind_inv in H. destruct H as (ts & g2 & H2 & H).
  injection H as <- <-. injection H1 as <- <-.
  inversion HP; subst.
  destruct (IH _ _ _ _ H2) as [-> Hts]; [assumption |].
  split; [reflexivity | now constructor].
Qed.

Lemma evolves_node (g g' : Graph) (a : nat) (nd : Node) :
  evolves g g' -> nth_error g a = Some nd ->
  exists nd',
    nth_error g' a = Some nd' /\ op nd' = op nd
    /\ control_inputs nd' = control_inputs nd.
Proof.
  intros [[e He] _] Ha.
  assert (Hc : nth_error (code_of g') a = Some (op nd, control_inputs nd)).
  { rewrite He. apply nth_error_app_some. unfold code_of.
    now rewrite nth_error_map, Ha. }
  unfold code_of in Hc. rewrite nth_error_map in Hc.
  destruct (nth_error g' a) as [nd' |]; [| discriminate].
  injection Hc as Ho Hc. eauto.
Qed.

(** X12: with [assert_unused], the derivatives the first stage hands to the
    second reverse-mode call cannot be evaluated.  When the first stage
    returns there is at least one derivative, the graph holds the failing
    [Assert] node of line 65, and under every feed every derivative fails
    with the error that [Assert] node fails with. *)
Theorem instrumented_dydxs_cannot_be_evaluated
        (feed : Tensor -> Z) (g g' : Graph) (ys xs us dydxs : list Tensor) :
  fwd_gradients_dydxs ys xs true g = (Ok (us, dydxs), g') ->
  dydxs <> []
  /\ exists a nd e,
       nth_error g' a = Some nd
       /\ op nd = TF.Assert false "fwd_gradients"
       /\ eval g' feed a = Err e
       /\ Forall (fun t => eval g' feed t = Err e) dydxs.
Proof.
  intros H.
  pose proof (fwd_gradients_dydxs_length _ _ _ _ _ _ _ H) as [_ Hlen].
  apply fwd_gradients_dydxs_inv in H.
  destruct H as (g1 & d1 & g2 & d2 & g3 & d3 & g4' & g5 & u
                 & _ & H2 & H3 & H4 & H5 & H6).
  apply gradients_length in H2. apply mapM_length in H3.
  unfold instrument in H4.
  apply bind_inv in H4. destruct H4 as (ctrl & g3' & Hc & H4).
  apply control_dependencies_graph in Hc. subst g3'.
  apply bind_inv in H4. destruct H4 as (a & ga & Ha & H4).
  apply bind_inv in H4. destruct H4 as (ids & gi & Hi & H4).
  injection H4 as <- <-. injection Ha as <- <-.
  pose proof (identity_n_length _ _ _ _ _ Hi) as Hil.
  destruct (identity_n_spec _ _ _ _ _ Hi) as (Hne & [e ->] & Hids).
  set (an := mkNode (TF.Assert false "fwd_gradients") ctrl (Some []) DT_BOOL)
    in *.
  set (g4 := (g3 ++ [an]) ++ e) in *.
  assert (Han : nth_error g4 (List.length g3) = Some an)
    by apply nth_error_app_some, nth_error_snoc.
  destruct (false_assert_fails feed g4 _ an _ Han eq_refl) as (err & Herr).
  destruct (or_zeros_present
              (fun i => i < List.length g4 /\ eval g4 feed i = Err err)
              xs ids g4 dydxs g5 H5) as [-> Hd].
  { eapply Forall_impl; [| exact Hids]. cbn beta.
    intros i (Hi1 & nd & Hnd & Hctrl). rewrite length_app in Hi1. cbn in Hi1.
    split; [apply nth_error_Some; congruence |].
    apply (failing_control_input feed g4 i (List.length g3) nd err);
      auto; lia. }
  assert (E : evolves g4 g')
    by (eapply (evolving_mapM force_shape _ evolving_force_shape), H6).
  split.
  { intros ->. destruct ids; [now apply Hne |]. cbn in *. lia. }
  destruct (evolves_node g4 g' _ an E Han) as (nd' & Hnd' & Ho & _).
  exists (List.length g3), nd', err.
  split; [exact Hnd' |]. split; [exact Ho |]. split.
  - rewrite <- Herr. apply eval_evolves; [exact E |].
    apply nth_error_Some. congruence.
  - eapply Forall_impl; [| exact Hd]. cbn beta. intros t [Ht Hev].
    rewrite <- Hev. now apply eval_evolves.
Qed.

Lemma instrumented_dydxs_cannot_be_evaluated_witness :
  [11; 12] <> []
  /\ exists a nd e,
       nth_error (snd (fwd_gradients_dydxs [2] [0; 1] true product_graph)) a
       = Some nd
       /\ op nd = TF.Assert false "fwd_gradients"
       /\ eval (snd (fwd_gradients_dydxs [2] [0; 1] true product_graph))
            sample_feed a = Err e
       /\ Forall (fun t =>
                    eval (snd (fwd_gradients_dydxs [2] [0; 1] true
                                 product_graph)) sample_feed t = Err e)
            [11; 12].
Proof.
  apply (instrumented_dydxs_cannot_be_evaluated sample_feed product_graph _
           [2] [0; 1] [7] [11; 12]).
  vm_compute. reflexivity.
Defined.

(** ** Sparse derivatives in a whole call *)










(** ** Linearity and rounding *)

Lemma closed_rounding_graph : closed rounding_graph.
Proof.
  unfold closed. cbn. forall_cons; split; forall_cons; unfold below; lia.
Qed.

(** In single precision the seed [[1; 2]] gives [2^24] (the sum
    [2^24 + 1] is rounded), three times which is [50331648]; the seed
    [[3; 6]] gives [50331652]. *)
Lemma rounding_example :
  exists a b gA gB,
    fwd_gradients [2] [0; 1] (Some [5; 6]) false rounding_graph
    = (Ok [Some (Dense a)], gA)
    /\ fwd_gradients [2] [0; 1] (Some [3; 4]) false rounding_graph
       = (Ok [Some (Dense b)], gB)
    /\ F32.eval gA rounding_feed a = Ok (Fin 50331652%Z)
    /\ F32.eval gB rounding_feed b = Ok (Fin 16777216%Z)
    /\ F32.scale 3 (F32.eval gB rounding_feed b) = Ok (Fin 50331648%Z).
Proof.
  do 4 eexists.
  split; [vm_compute; reflexivity |].
  split; [vm_compute; reflexivity |].
  split; [vm_compute; reflexivity |].
  split; vm_compute; reflexivity.
Qed.

(** C4 (as stated, refuted): with the numbers of a [DT_FLOAT] tensor,
    scaling the seed by [c] does not always scale the result by [c].  For
    [y = x1 * x2] at [x1 = 2^23], [x2 = 1], the seed [[3; 6]] is three times
    the seed [[1; 2]], and the result for it is [50331652], not three times
    the result [16777216] for [[1; 2]]. *)
Lemma fwd_gradients_linear_in_seed_float32_counterexample :
  ~ (forall (feed : Tensor -> Z) (c : Z) (g : Graph)
            (ys xs grad_xs scaled : list Tensor) (assert_unused : bool),
        closed g ->
        Forall (below (List.length g)) ys ->
        Forall (below (List.length g)) xs ->
        Forall (below (List.length g)) grad_xs ->
        Forall (below (List.length g)) scaled ->
        List.length grad_xs = List.length xs ->
        Forall2
          (fun s' s => F32.eval g feed s' = F32.scale c (F32.eval g feed s))
          scaled grad_xs ->
        match fwd_gradients ys xs (Some scaled) assert_unused g,
              fwd_gradients ys xs (Some grad_xs) assert_unused g with
        | (Ok rA, gA), (Ok rB, gB) =>
            Forall2 (F32.scaled_entry feed c gA gB) rA rB
        | (Err eA, _), (Err eB, _) => eA = eB
        | _, _ => False
        end).
Proof.
  intros H.
  specialize (H rounding_feed 3%Z rounding_graph [2] [0; 1] [3; 4] [5; 6]
                false closed_rounding_graph).
  assert (Hb : forall l, forallb (fun t => t <? 7) l = true ->
                         Forall (below (List.length rounding_graph)) l).
  { intros l Hl. apply Forall_forall. intros t Ht.
    rewrite forallb_forall in Hl. apply Hl in Ht.
    apply Nat.ltb_lt in Ht. exact Ht. }
  specialize (H (Hb [2] eq_refl) (Hb [0; 1] eq_refl) (Hb [3; 4] eq_refl)
                (Hb [5; 6] eq_refl) eq_refl).
  assert (Hs : Forall2
                 (fun s' s => F32.eval rounding_graph rounding_feed s'
                              = F32.scale 3 (F32.eval rounding_graph
                                               rounding_feed s))
                 [5; 6] [3; 4]).
  { repeat (apply Forall2_cons || apply Forall2_nil); reflexivity. }
  specialize (H Hs).
  destruct rounding_example as (a & b & gA & gB & EA & EB & VA & _ & VS).
  change (@Some (list Tensor)) with (@Some (list nat)) in H.
  rewrite EA, EB in H.
  inversion H as [| ? ? ? ? Hhd _]. unfold F32.scaled_entry in Hhd.
  rewrite VA, VS in Hhd. discriminate Hhd.
Qed.
